(** * Insurance portfolio analytics: generator and SQL reports

    A shallow embedding of [insurance_portfolio_sql_dashboard.py].

    - SQLite [REAL] columns and Python/NumPy floats are modelled as exact
      rationals ([Q]); equality of amounts is [Qeq] ([==]).  Rounding to two
      decimals is round-half-to-even on the exact value; the binary64
      result of NumPy's [rint(x * 100) / 100] can be the neighbouring cent,
      and the properties below rely only on the bounds that either
      rounding keeps.  [SUM] and [.sum()] add exactly, where the program
      adds in binary64: what is stated of a sum is stated of the exact sum
      of the stored amounts.
    - Tables are lists of rows in rowid order.
    - NumPy's random [Generator] is an interface: one primitive per
      distribution, threading the generator state explicitly.  Only the
      documented support of each distribution is assumed of it.
    - The SQL text of each report is translated operator by operator
      (LEFT JOIN, GROUP BY, aggregates, CASE, ORDER BY, LIMIT).  GROUP BY
      lists its groups in order of first appearance and ORDER BY is a
      stable sort; nothing proved below depends on how ties or unordered
      groups are laid out. *)

From Stdlib Require Import ZArith QArith Qround List String Bool Lia.
From Stdlib Require Import Sorting.Sorted Sorting.Permutation.
From Stdlib Require Import Classes.RelationClasses Classes.Morphisms Setoid.
Import ListNotations.

Local Open Scope Z_scope.

(** ** Numbers *)

Module Real.

(** Round to the nearest integer, ties to the even one. *)
Definition rint (x : Q) : Z :=
  let f := Qfloor x in
  match Qcompare (x - inject_Z f) (1 # 2) with
  | Lt => f
  | Gt => f + 1
  | Eq => if Z.even f then f else f + 1
  end.

(** [x.round(2)] / [round(x, 2)]. *)
Definition round2 (x : Q) : Q := (inject_Z (rint (x * 100)) / 100)%Q.

(** [x.clip(lo, hi)], i.e. [minimum(maximum(x, lo), hi)]. *)
Definition clip (lo hi x : Q) : Q :=
  let y := if Qle_bool lo x then x else lo in
  if Qle_bool y hi then y else hi.

(** The exact sum of a column. *)
Definition qsum (l : list Q) : Q := fold_right Qplus 0%Q l.

End Real.

(** ** Schema *)

Module Policy.
Record row := mk
  { policy_id : Z; customer_age : Z; car_type : string; premium : Q }.
End Policy.

Module Claim.
Record row := mk
  { claim_id : Z; policy_id : Z; claim_amount : Q; claim_date : option string }.
End Claim.

Record Database := mkDatabase
  { Policies : list Policy.row; Claims : list Claim.row }.

(** The database file is removed before [connect], so both tables start
    empty. *)
Definition empty_db : Database := mkDatabase [] [].

(** [INTEGER PRIMARY KEY AUTOINCREMENT]: one more than the largest key. *)
Definition next_rowid (ids : list Z) : Z := fold_right Z.max 0 ids + 1.

Fixpoint insert_policies (rows : list (Z * string * Q)) (t : list Policy.row)
  : list Policy.row :=
  match rows with
  | [] => t
  | (age, car, prem) :: rest =>
      insert_policies rest
        (t ++ [Policy.mk (next_rowid (map Policy.policy_id t)) age car prem])
  end.

Fixpoint insert_claims (rows : list (Z * Q * option string)) (t : list Claim.row)
  : list Claim.row :=
  match rows with
  | [] => t
  | (pid, amt, date) :: rest =>
      insert_claims rest
        (t ++ [Claim.mk (next_rowid (map Claim.claim_id t)) pid amt date])
  end.

(** ** The random generator *)

(** [numpy.random.Generator] and [math.log], as far as the script uses
    them.  Each draw returns the value and the advanced generator. *)
Class Numpy (Rng : Type) := {
  default_rng : Z -> Rng;
  integers : Z -> Z -> Rng -> Z * Rng;
  choice : list string -> list Q -> Rng -> string * Rng;
  normal : Q -> Q -> Rng -> Q * Rng;
  poisson : Q -> Rng -> nat * Rng;
  lognormal : Q -> Q -> Rng -> Q * Rng;
  log : Q -> Q
}.

(** The support of the distributions: [integers] draws from the half-open
    interval, [lognormal] gives a positive number. *)
Class NumpyLaws {Rng : Type} (np : Numpy Rng) : Prop := {
  integers_range : forall low high g,
    low < high -> low <= fst (integers low high g) < high;
  lognormal_pos : forall mu sigma g, (0 < fst (lognormal mu sigma g))%Q
}.

(** State passing over the generator. *)
Definition Rand (Rng A : Type) : Type := Rng -> A * Rng.

Definition ret {Rng A} (a : A) : Rand Rng A := fun g => (a, g).

Definition bind {Rng A B} (m : Rand Rng A) (k : A -> Rand Rng B) : Rand Rng B :=
  fun g => let (a, g') := m g in k a g'.

Notation "x <- m ;; k" := (bind m (fun x => k))
  (at level 61, m at next level, right associativity).

(** [size=n]: [n] successive draws. *)
Fixpoint draws {Rng A} (n : nat) (one : Rand Rng A) : Rand Rng (list A) :=
  match n with
  | O => ret []
  | S n' => x <- one ;; xs <- draws n' one ;; ret (x :: xs)
  end.

Definition N_POLICIES : nat := 1000.

Definition sigma : Q := 0.9.

Definition base_lambda (car : string) (age : Z) : Q :=
  let base_lambda := 0.12%Q in
  let base_lambda :=
    if (car =? "Sports")%string then (base_lambda * 2.0)%Q
    else if (car =? "Truck")%string then (base_lambda * 1.4)%Q
    else base_lambda in
  if age <? 25 then (base_lambda * 1.6)%Q else base_lambda.

Section Generator.

Context {Rng : Type} {np : Numpy Rng}.

Definition mu : Q := (log 7000 - 0.5 * (sigma * sigma))%Q.

(** [ages], [car_types], [premiums] and their zip [policy_rows]. *)
Definition policy_rows (n : nat) : Rand Rng (list (Z * string * Q)) :=
  ages <- draws n (integers 18 80) ;;
  car_types <- draws n (choice ["Sedan"; "SUV"; "Truck"; "Sports"]%string
                               [0.4; 0.3; 0.2; 0.1]%Q) ;;
  raw <- draws n (normal 1200 250) ;;
  let premiums := map (fun x => Real.round2 (Real.clip 400 4000 x)) raw in
  ret (combine (combine ages car_types) premiums).

(** [SELECT policy_id, customer_age, car_type FROM Policies]. *)
Definition policy_info (db : Database) : list (Z * Z * string) :=
  map (fun p => (Policy.policy_id p, Policy.customer_age p, Policy.car_type p))
      (Policies db).

(** The body of the loop over [policy_info]: the rows it appends. *)
Definition claims_of_policy (pid age : Z) (car : string)
  : Rand Rng (list (Z * Q * option string)) :=
  n_claims <- poisson (base_lambda car age) ;;
  amts <- draws n_claims (lognormal mu sigma) ;;
  ret (map (fun amt => (pid, Real.round2 amt, @None string)) amts).

Fixpoint claims_rows (info : list (Z * Z * string))
  : Rand Rng (list (Z * Q * option string)) :=
  match info with
  | [] => ret []
  | (pid, age, car) :: rest =>
      here <- claims_of_policy pid age car ;;
      later <- claims_rows rest ;;
      ret (here ++ later)
  end.

(** The generator as a whole: the two tables after both bulk inserts,
    and [claims_rows] (which the summary counts). *)
Definition generate (n : nat) : Rand Rng (Database * list (Z * Q * option string)) :=
  rows <- policy_rows n ;;
  let db := mkDatabase (insert_policies rows (Policies empty_db)) (Claims empty_db) in
  crows <- claims_rows (policy_info db) ;;
  ret (mkDatabase (Policies db) (insert_claims crows (Claims db)), crows).

(** One run of the script's generator from a seed. *)
Definition Generator (seed : Z) (n : nat) : Database * list (Z * Q * option string) :=
  fst (generate n (default_rng seed)).

End Generator.

(** ** SQL operators *)

Module Sql.

Section Relational.

Context {A B K : Type}.

(** [l LEFT JOIN r ON on]: every left row, paired with each matching
    right row, or once with NULL when none matches. *)
Definition left_join (on : A -> B -> bool) (l : list A) (r : list B)
  : list (A * option B) :=
  flat_map
    (fun a => match filter (on a) r with
              | [] => [(a, None)]
              | m => map (fun b => (a, Some b)) m
              end) l.

(** The first row of each group, in order of first appearance. *)
Fixpoint representatives (eqb : K -> K -> bool) (key : A -> K) (rows : list A)
  : list A :=
  match rows with
  | [] => []
  | r :: rest =>
      r :: filter (fun r' => negb (eqb (key r') (key r)))
                  (representatives eqb key rest)
  end.

(** [GROUP BY key]: each group as its first row (the source of bare
    columns) and all its rows. *)
Definition group_by (eqb : K -> K -> bool) (key : A -> K) (rows : list A)
  : list (A * list A) :=
  map (fun rep => (rep, filter (fun r => eqb (key r) (key rep)) rows))
      (representatives eqb key rows).

(** [ORDER BY]: a stable sort. *)
Fixpoint insert_sorted (le : A -> A -> bool) (x : A) (l : list A) : list A :=
  match l with
  | [] => [x]
  | y :: l' => if le x y then x :: l else y :: insert_sorted le x l'
  end.

Definition order_by (le : A -> A -> bool) (rows : list A) : list A :=
  fold_right (insert_sorted le) [] rows.

Definition LIMIT (n : nat) (rows : list A) : list A := firstn n rows.

(** Aggregates skip NULL. *)
Definition non_null (l : list (option A)) : list A :=
  flat_map (fun o => match o with Some a => [a] | None => [] end) l.

Definition COUNT (l : list (option A)) : Z := Z.of_nat (List.length (non_null l)).

Definition COUNT_star (l : list A) : Z := Z.of_nat (List.length l).

Definition COALESCE (x : option A) (d : A) : A :=
  match x with Some v => v | None => d end.

End Relational.

Fixpoint distinct {K} (eqb : K -> K -> bool) (l : list K) : list K :=
  match l with
  | [] => []
  | k :: rest => k :: filter (fun k' => negb (eqb k' k)) (distinct eqb rest)
  end.

Definition COUNT_DISTINCT {K} (eqb : K -> K -> bool) (l : list (option K)) : Z :=
  Z.of_nat (List.length (distinct eqb (non_null l))).

(** [SUM] is NULL when there is no non-NULL input. *)
Definition SUM (l : list (option Q)) : option Q :=
  match non_null l with
  | [] => None
  | vs => Some (Real.qsum vs)
  end.

Definition AVG (l : list (option Q)) : option Q :=
  match non_null l with
  | [] => None
  | vs => Some (Real.qsum vs / inject_Z (Z.of_nat (List.length vs)))%Q
  end.

(** Descending order on a REAL column. *)
Definition desc (x y : Q) : bool := Qle_bool y x.

(** Descending order on a nullable REAL column; NULL sorts last. *)
Definition desc_null (x y : option Q) : bool :=
  match x, y with
  | _, None => true
  | None, Some _ => false
  | Some a, Some b => Qle_bool b a
  end.

End Sql.

Import Sql.

(** ** The reports *)

(** [Policies p LEFT JOIN Claims c ON p.policy_id = c.policy_id]. *)
Definition joined (db : Database) : list (Policy.row * option Claim.row) :=
  left_join (fun p c => Policy.policy_id p =? Claim.policy_id c)
            (Policies db) (Claims db).

(** The column [p.policy_id] of a joined row. *)
Definition policy_key (r : Policy.row * option Claim.row) : Z :=
  Policy.policy_id (fst r).

Definition c_claim_amount (r : Policy.row * option Claim.row) : option Q :=
  option_map Claim.claim_amount (snd r).

Definition c_claim_id (r : Policy.row * option Claim.row) : option Z :=
  option_map Claim.claim_id (snd r).

(** [CASE WHEN premiums = 0 THEN NULL ELSE claims * 1.0 / premiums END].
    With a NULL sum the comparison is not true and the quotient is NULL. *)
Definition loss_ratio_case (claims : Q) (premiums : option Q) : option Q :=
  match premiums with
  | Some s => if Qeq_bool s 0 then None else Some (claims * 1 / s)%Q
  | None => None
  end.

Module LossByCar.
Record row := mk
  { car_type : string; num_policies : Z; total_claims : Q;
    total_premiums : option Q; loss_ratio : option Q; total_claims_count : Z }.
End LossByCar.

Definition q_loss_by_car (db : Database) : list LossByCar.row :=
  order_by (fun a b => desc_null (LossByCar.loss_ratio a) (LossByCar.loss_ratio b))
    (map (fun g : (Policy.row * option Claim.row) * list (Policy.row * option Claim.row) =>
            let (rep, rows) := g in
            let total_claims := COALESCE (SUM (map c_claim_amount rows)) 0%Q in
            let total_premiums := SUM (map (fun r => Some (Policy.premium (fst r))) rows) in
            LossByCar.mk
              (Policy.car_type (fst rep))
              (COUNT_DISTINCT Z.eqb (map (fun r => Some (Policy.policy_id (fst r))) rows))
              total_claims
              total_premiums
              (loss_ratio_case total_claims total_premiums)
              (COUNT (map c_claim_id rows)))
         (group_by String.eqb (fun r => Policy.car_type (fst r)) (joined db))).

(** The key of [GROUP BY p.policy_id, p.customer_age, p.premium]. *)
Definition claims_key (r : Policy.row * option Claim.row) : Z * Z * Q :=
  (Policy.policy_id (fst r), Policy.customer_age (fst r), Policy.premium (fst r)).

Definition claims_key_eqb (k k' : Z * Z * Q) : bool :=
  (fst (fst k) =? fst (fst k')) && (snd (fst k) =? snd (fst k'))
  && Qeq_bool (snd k) (snd k').

Module PolicyClaims.
Record row := mk
  { policy_id : Z; customer_age : Z; premium : Q;
    claims_count : Z; claims_amount : Q }.
End PolicyClaims.

(** The CTE [policy_claims]. *)
Definition policy_claims (db : Database) : list PolicyClaims.row :=
  map (fun g : (Policy.row * option Claim.row) * list (Policy.row * option Claim.row) =>
         let (rep, rows) := g in
         PolicyClaims.mk
           (Policy.policy_id (fst rep))
           (Policy.customer_age (fst rep))
           (Policy.premium (fst rep))
           (COALESCE (Some (COUNT (map c_claim_id rows))) 0)
           (COALESCE (SUM (map c_claim_amount rows)) 0%Q))
      (group_by claims_key_eqb claims_key (joined db)).

Definition age_group (customer_age : Z) : string :=
  if (18 <=? customer_age) && (customer_age <=? 29) then "18-29"
  else if (30 <=? customer_age) && (customer_age <=? 39) then "30-39"
  else if (40 <=? customer_age) && (customer_age <=? 49) then "40-49"
  else if (50 <=? customer_age) && (customer_age <=? 59) then "50-59"
  else if (60 <=? customer_age) && (customer_age <=? 69) then "60-69"
  else "70+".

Module AgeGroup.
Record row := mk
  { age_group : string; num_policies : Z; avg_claims_per_policy : option Q;
    total_claims_amount : option Q; total_premiums : option Q;
    loss_ratio : option Q }.
End AgeGroup.

(** In the age-group query both operands of the CASE are sums: a NULL
    numerator makes the quotient NULL. *)
Definition loss_ratio_case_null (claims premiums : option Q) : option Q :=
  match claims with
  | Some c => loss_ratio_case c premiums
  | None => None
  end.

Definition q_age_groups (db : Database) : list AgeGroup.row :=
  order_by (fun a b => (AgeGroup.age_group a <=? AgeGroup.age_group b)%string)
    (map (fun g : PolicyClaims.row * list PolicyClaims.row =>
            let (rep, rows) := g in
            let total_claims_amount :=
              SUM (map (fun r => Some (PolicyClaims.claims_amount r)) rows) in
            let total_premiums :=
              SUM (map (fun r => Some (PolicyClaims.premium r)) rows) in
            AgeGroup.mk
              (age_group (PolicyClaims.customer_age rep))
              (COUNT_star rows)
              (AVG (map (fun r => Some (inject_Z (PolicyClaims.claims_count r))) rows))
              total_claims_amount
              total_premiums
              (loss_ratio_case_null total_claims_amount total_premiums))
         (group_by String.eqb (fun r => age_group (PolicyClaims.customer_age r))
                   (policy_claims db))).

Module PerPolicy.
Record row := mk
  { policy_id : Z; customer_age : Z; car_type : string; premium : Q;
    total_claims_amount : Q; claims_count : Z }.
End PerPolicy.

(** The SELECT ... GROUP BY p.policy_id shared by [q_per_policy] and
    [q_top_policies]. *)
Definition per_policy_rows (db : Database) : list PerPolicy.row :=
  map (fun g : (Policy.row * option Claim.row) * list (Policy.row * option Claim.row) =>
         let (rep, rows) := g in
         PerPolicy.mk
           (Policy.policy_id (fst rep))
           (Policy.customer_age (fst rep))
           (Policy.car_type (fst rep))
           (Policy.premium (fst rep))
           (COALESCE (SUM (map c_claim_amount rows)) 0%Q)
           (COUNT (map c_claim_id rows)))
      (group_by Z.eqb policy_key (joined db)).

Definition q_per_policy (db : Database) : list PerPolicy.row :=
  per_policy_rows db.

Definition q_top_policies (db : Database) : list PerPolicy.row :=
  LIMIT 10
    (order_by (fun a b => desc (PerPolicy.total_claims_amount a)
                               (PerPolicy.total_claims_amount b))
              (per_policy_rows db)).

Module PortfolioMix.
Record row := mk { car_type : string; num_policies : Z }.
End PortfolioMix.

Definition q_portfolio_mix (db : Database) : list PortfolioMix.row :=
  map (fun g : Policy.row * list Policy.row =>
         let (rep, rows) := g in
         PortfolioMix.mk (Policy.car_type rep) (COUNT_star rows))
      (group_by String.eqb Policy.car_type (Policies db)).

(** ** Summary metrics (pandas) *)

(** A float64 result: a number, an infinity, or NaN. *)
Inductive float64 : Type :=
| Finite (q : Q)
| Infinity (negative : bool)
| NaN.

(** [a / b] on two float64 scalars: dividing by zero does not raise, it
    gives NaN for [0 / 0] and a signed infinity otherwise. *)
Definition truediv (a b : Q) : float64 :=
  if Qeq_bool b 0 then
    if Qeq_bool a 0 then NaN else Infinity (negb (Qle_bool 0 a))
  else Finite (a / b)%Q.

(** What evaluating the quotient of the two column sums gives: a float64,
    or the exception Python raises for [0 / 0] on its own integers. *)
Inductive outcome : Type :=
| Value (x : float64)
| ZeroDivisionError.

(** [per_policy[a].sum() / per_policy[b].sum()].  A frame read from a
    query without rows has object columns, whose sums are the integer 0,
    and [0 / 0] raises; a frame with rows has float64 columns. *)
Definition sum_ratio {A} (frame : list A) (a b : Q) : outcome :=
  match frame with
  | [] => ZeroDivisionError
  | _ :: _ => Value (truediv a b)
  end.

Module Summary.
Record t := mk
  { total_policies : Z; total_claims_records : Z;
    total_claims_amount : Q; average_loss_ratio_overall : outcome }.
End Summary.

(** The entries of the dictionary [summary_metrics], computed from the
    frame [per_policy] and the list [claims_rows].  When the last entry
    raises, the dictionary is not built and the script stops there. *)
Definition summary_metrics (per_policy : list PerPolicy.row)
                           (claims_rows : list (Z * Q * option string)) : Summary.t :=
  Summary.mk
    (Z.of_nat (List.length per_policy))
    (Z.of_nat (List.length claims_rows))
    (Real.qsum (map PerPolicy.total_claims_amount per_policy))
    (sum_ratio per_policy
               (Real.qsum (map PerPolicy.total_claims_amount per_policy))
               (Real.qsum (map PerPolicy.premium per_policy))).

(** ** A scripted generator *)

(** A generator whose state counts the draws made so far and whose Poisson
    and lognormal outcomes are read from two scripts indexed by that
    count.  It gives concrete datasets to evaluate the reports on. *)
Module Scripted.

Section Script.

Variable counts : nat -> nat.
Variable severity : nat -> Q.

Definition numpy : Numpy nat := {|
  default_rng seed := Z.to_nat seed;
  integers low high g := (low + Z.of_nat g mod (high - low), S g);
  choice a p g := (nth (g mod List.length a) a ""%string, S g);
  normal loc scale g :=
    ((loc + scale * inject_Z (Z.of_nat g mod 31 - 15))%Q, S g);
  poisson lam g := (counts g, S g);
  lognormal mean sd g := (severity g, S g);
  log x := 0%Q
|}.

End Script.

End Scripted.

(** ** Auxiliary definitions *)

(** Sums in a monoid: [Q] with [Qplus] for amounts, [Z] with [+] for
    counts. *)
Definition msum {M : Type} (op : M -> M -> M) (e : M) (l : list M) : M :=
  fold_right op e l.

Definition zsum (l : list Z) : Z := fold_right Z.add 0 l.

(** The claim amount a joined row contributes: zero on the NULL side. *)
Definition amount_or_zero (r : Policy.row * option Claim.row) : Q :=
  COALESCE (c_claim_amount r) 0%Q.

(** The categories of the age-group column, in their order. *)
Definition age_buckets : list string :=
  ["18-29"; "30-39"; "40-49"; "50-59"; "60-69"; "70+"]%string.

Fixpoint index_of (b : string) (l : list string) : nat :=
  match l with
  | [] => O
  | b' :: rest => if (b =? b')%string then O else S (index_of b rest)
  end.

(** The place of a label in the canonical sequence. *)
Definition bucket_index (b : string) : nat := index_of b age_buckets.

(** The re-ordering done before plotting: the label column becomes an
    ordered [pd.Categorical] over [age_buckets] and the frame is sorted on
    it, i.e. on the position of each label. *)
Definition sort_values_age_group (rows : list AgeGroup.row) : list AgeGroup.row :=
  order_by (fun a b => (bucket_index (AgeGroup.age_group a)
                        <=? bucket_index (AgeGroup.age_group b))%nat)
           rows.

(** The bands as the labels read: from-to inclusive, [70+] from 70 up. *)
Definition in_band (b : string) (age : Z) : bool :=
  if (b =? "18-29")%string then (18 <=? age) && (age <=? 29)
  else if (b =? "30-39")%string then (30 <=? age) && (age <=? 39)
  else if (b =? "40-49")%string then (40 <=? age) && (age <=? 49)
  else if (b =? "50-59")%string then (50 <=? age) && (age <=? 59)
  else if (b =? "60-69")%string then (60 <=? age) && (age <=? 69)
  else if (b =? "70+")%string then 70 <=? age
  else false.

(** The policies whose age lies in a band. *)
Definition band_policies (db : Database) (b : string) : list Policy.row :=
  filter (fun p => in_band b (Policy.customer_age p)) (Policies db).

(** The policy count the report gives for a bucket: that of the row
    carrying the label, zero when no row does. *)
Definition bucket_count (report : list AgeGroup.row) (b : string) : Z :=
  match find (fun row => (AgeGroup.age_group row =? b)%string) report with
  | Some row => AgeGroup.num_policies row
  | None => 0
  end.



(** At the parameters of the script a severity draw is well above half a
    cent: NumPy computes it as the exponential of [mu + sigma * z] for a
    standard normal [z]; with [mu] close to 8.45 a draw of half a cent or
    less needs [z] below -15, and the normal sampler returns values of
    smaller magnitude. *)
Class SeverityLaws {Rng : Type} (np : Numpy Rng) : Prop := {
  lognormal_floor : forall g, (1 # 200 < fst (lognormal mu sigma g))%Q
}.

(** No policy makes a claim. *)
Definition quiet : Numpy nat := Scripted.numpy (fun _ => 0%nat) (fun _ => 7000%Q).

(** Claim counts 0, 1, 2 in turn, amounts around 7000. *)
Definition busy : Numpy nat :=
  Scripted.numpy (fun g => (g mod 3)%nat)
                 (fun g => (7000 + inject_Z (Z.of_nat g) / 3)%Q).

(** ** Definitions for the further properties *)

(** The claims that refer to a policy. *)
Definition claims_of (db : Database) (p : Policy.row) : list Claim.row :=
  filter (fun c => Policy.policy_id p =? Claim.policy_id c) (Claims db).

(** The rows one policy contributes to the join. *)
Definition join_rows (db : Database) (p : Policy.row)
  : list (Policy.row * option Claim.row) :=
  match claims_of db p with
  | [] => [(p, None)]
  | m => map (fun c => (p, Some c)) m
  end.

(** The row of the per-policy SELECT for one policy. *)
Definition per_policy_row (db : Database) (p : Policy.row) : PerPolicy.row :=
  PerPolicy.mk (Policy.policy_id p) (Policy.customer_age p)
               (Policy.car_type p) (Policy.premium p)
               (Real.qsum (map Claim.claim_amount (claims_of db p)))
               (Z.of_nat (List.length (claims_of db p))).

(** The columns of a stored policy and of a stored claim that the script
    supplied, without the key the table added. *)
Definition policy_values (p : Policy.row) : Z * string * Q :=
  (Policy.customer_age p, Policy.car_type p, Policy.premium p).

Definition claim_values (c : Claim.row) : Z * Q * option string :=
  (Claim.policy_id c, Claim.claim_amount c, Claim.claim_date c).

(** The keys 1, 2, ..., n. *)
Definition rowids (n : nat) : list Z := map Z.of_nat (seq 1 n).

(** A small book: policy 1 has two claims, policy 2 none, policy 3 one. *)
Definition sample_db : Database :=
  mkDatabase
    [Policy.mk 1 22 "Sports" 1500; Policy.mk 2 45 "Sedan" 1000;
     Policy.mk 3 71 "Sports" 500]
    [Claim.mk 1 1 3000 None; Claim.mk 2 1 1000 None; Claim.mk 3 3 250 None].

(** The policies of one car type. *)
Definition car_policies (db : Database) (k : string) : list Policy.row :=
  filter (fun p => (Policy.car_type p =? k)%string) (Policies db).

(** How often the join repeats a policy: once per claim, once without. *)
Definition join_weight (db : Database) (p : Policy.row) : Q :=
  inject_Z (Z.of_nat (Nat.max 1 (List.length (claims_of db p)))).

(** The categories [choice] draws the car type from. *)
Definition CAR_TYPES : list string := ["Sedan"; "SUV"; "Truck"; "Sports"]%string.

(** [choice] returns one of the given categories. *)
Class ChoiceLaws {Rng : Type} (np : Numpy Rng) : Prop := {
  choice_In : forall a p g, a <> [] -> In (fst (choice a p g)) a
}.

(** [DataFrame.head(n)]: the first [n] rows. *)
Definition head {A} (n : nat) (rows : list A) : list A := firstn n rows.

(** The row of the CTE [policy_claims] for one policy. *)
Definition policy_claims_row (db : Database) (p : Policy.row) : PolicyClaims.row :=
  PolicyClaims.mk (Policy.policy_id p) (Policy.customer_age p) (Policy.premium p)
                  (Z.of_nat (List.length (claims_of db p)))
                  (Real.qsum (map Claim.claim_amount (claims_of db p))).

(** The policies whose age falls under one label. *)
Definition age_policies (db : Database) (k : string) : list Policy.row :=
  filter (fun p => (age_group (Policy.customer_age p) =? k)%string) (Policies db).

(** The claims a list of policies has, all together. *)
Definition claims_total (db : Database) (ps : list Policy.row) : Q :=
  Real.qsum (map (fun p => Real.qsum (map Claim.claim_amount (claims_of db p))) ps).

(** Whether a claim refers to a policy of the table. *)
Definition has_policy (db : Database) (c : Claim.row) : bool :=
  existsb (fun p => Policy.policy_id p =? Claim.policy_id c) (Policies db).

(** The database without the claims that refer to no policy. *)
Definition without_orphans (db : Database) : Database :=
  mkDatabase (Policies db) (filter (has_policy db) (Claims db)).

(** * Properties *)

(** ** Rounding and clipping *)

Lemma rint_floor (y : Q) : Qfloor y <= Real.rint y <= Qfloor y + 1.
Proof.
  unfold Real.rint.
  destruct (Qcompare (y - inject_Z (Qfloor y)) (1 # 2)); [destruct (Z.even _) | |]; lia.
Qed.

Lemma rint_lower (k : Z) (y : Q) : (inject_Z k <= y)%Q -> k <= Real.rint y.
Proof.
  intros H. apply Qfloor_resp_le in H. rewrite Qfloor_Z in H.
  pose proof (rint_floor y). lia.
Qed.

Lemma rint_upper (k : Z) (y : Q) : (y <= inject_Z k)%Q -> Real.rint y <= k.
Proof.
  intros H.
  assert (Hf : Qfloor y <= k).
  { apply Qfloor_resp_le in H. now rewrite Qfloor_Z in H. }
  destruct (Z.eq_dec (Qfloor y) k) as [E | NE].
  - unfold Real.rint. rewrite E.
    assert (Hlt : (y - inject_Z k < 1 # 2)%Q).
    { apply Qle_lt_trans with 0%Q; [| reflexivity].
      apply (Qplus_le_l _ _ (inject_Z k)). ring_simplify. exact H. }
    assert (Hc : Qcompare (y - inject_Z k) (1 # 2) = Lt) by (apply Qlt_alt; exact Hlt).
    rewrite Hc. reflexivity.
  - pose proof (rint_floor y). lia.
Qed.

Lemma round2_lower (a : Z) (x : Q) :
  (inject_Z a <= x)%Q -> (inject_Z a <= Real.round2 x)%Q.
Proof.
  intros H. unfold Real.round2.
  apply Qle_shift_div_l; [reflexivity |].
  change 100%Q with (inject_Z 100). rewrite <- inject_Z_mult.
  rewrite <- Zle_Qle. apply rint_lower.
  rewrite inject_Z_mult. apply Qmult_le_compat_r; [exact H | discriminate].
Qed.

Lemma round2_upper (b : Z) (x : Q) :
  (x <= inject_Z b)%Q -> (Real.round2 x <= inject_Z b)%Q.
Proof.
  intros H. unfold Real.round2.
  apply Qle_shift_div_r; [reflexivity |].
  change 100%Q with (inject_Z 100). rewrite <- inject_Z_mult.
  rewrite <- Zle_Qle. apply rint_upper.
  rewrite inject_Z_mult. apply Qmult_le_compat_r; [exact H | discriminate].
Qed.

Lemma clip_range (lo hi x : Q) :
  (lo <= hi)%Q -> (lo <= Real.clip lo hi x <= hi)%Q.
Proof.
  intros Hlh. unfold Real.clip.
  destruct (Qle_bool lo x) eqn:E1.
  - apply Qle_bool_iff in E1.
    destruct (Qle_bool x hi) eqn:E2.
    + apply Qle_bool_iff in E2. split; assumption.
    + split; [exact Hlh | apply Qle_refl].
  - destruct (Qle_bool lo hi) eqn:E2.
    + split; [apply Qle_refl | exact Hlh].
    + split; [exact Hlh | apply Qle_refl].
Qed.

(** A positive amount rounds to a non-negative one, and to a positive one
    as soon as it exceeds half a cent. *)
Lemma round2_nonneg (x : Q) : (0 <= x)%Q -> (0 <= Real.round2 x)%Q.
Proof. intros H. apply (round2_lower 0). exact H. Qed.

Lemma round2_pos (x : Q) : (1 # 200 < x)%Q -> (0 < Real.round2 x)%Q.
Proof.
  intros H. unfold Real.round2.
  apply Qlt_shift_div_l; [reflexivity |].
  change (0 * 100)%Q with (inject_Z 0). rewrite <- Zlt_Qlt.
  assert (Hx : (1 # 2 < x * 100)%Q).
  { apply Qle_lt_trans with ((1 # 200) * 100)%Q; [discriminate |].
    apply Qmult_lt_compat_r; [reflexivity | exact H]. }
  assert (H0 : 0 <= Qfloor (x * 100)).
  { change 0 with (Qfloor 0). apply Qfloor_resp_le.
    apply Qlt_le_weak. apply Qlt_trans with (1 # 2)%Q; [reflexivity | exact Hx]. }
  destruct (Z.eq_dec (Qfloor (x * 100)) 0) as [E | NE].
  - unfold Real.rint. rewrite E.
    assert (Hgt : Qcompare (x * 100 - inject_Z 0) (1 # 2) = Gt).
    { apply Qgt_alt. unfold Qminus. change (- inject_Z 0)%Q with 0%Q.
      rewrite Qplus_0_r. exact Hx. }
    rewrite Hgt. lia.
  - pose proof (rint_floor (x * 100)). lia.
Qed.

(** ** The generator *)

Lemma draws_length {Rng A} (one : Rand Rng A) (n : nat) (g : Rng) :
  List.length (fst (draws n one g)) = n.
Proof.
  revert g. induction n as [| n IH]; intros g; cbn [draws].
  - reflexivity.
  - unfold bind, ret. destruct (one g) as [x g1].
    specialize (IH g1). destruct (draws n one g1) as [xs g2].
    cbn in *. now rewrite IH.
Qed.

Lemma draws_Forall {Rng A} (P : A -> Prop) (one : Rand Rng A) :
  (forall g, P (fst (one g))) ->
  forall n g, Forall P (fst (draws n one g)).
Proof.
  intros Hone. induction n as [| n IH]; intros g; cbn [draws].
  - constructor.
  - unfold bind, ret. pose proof (Hone g) as Hx.
    destruct (one g) as [x g1]. specialize (IH g1).
    destruct (draws n one g1) as [xs g2]. cbn in *. now constructor.
Qed.

Lemma next_rowid_fresh (ids : list Z) : forall i, In i ids -> i < next_rowid ids.
Proof.
  unfold next_rowid. induction ids as [| j ids IH]; intros i Hi; [easy |].
  cbn [fold_right]. destruct Hi as [-> | Hi]; [lia |].
  specialize (IH i Hi). lia.
Qed.

Lemma insert_policies_In rows : forall t p,
  In p (insert_policies rows t) ->
  In p t \/ In (Policy.customer_age p, Policy.car_type p, Policy.premium p) rows.
Proof.
  induction rows as [| [[age car] prem] rows IH]; intros t p Hp; cbn in Hp.
  - now left.
  - apply IH in Hp. destruct Hp as [Hp | Hp]; [| right; now right].
    apply in_app_or in Hp. destruct Hp as [Hp | [<- | []]]; [now left |].
    right. now left.
Qed.

Lemma insert_policies_NoDup rows : forall t,
  NoDup (map Policy.policy_id t) ->
  NoDup (map Policy.policy_id (insert_policies rows t)).
Proof.
  induction rows as [| [[age car] prem] rows IH]; intros t Ht; cbn.
  - exact Ht.
  - apply IH. rewrite map_app. cbn.
    apply NoDup_app; [exact Ht | repeat constructor; easy |].
    intros i Hi [<- | []].
    apply next_rowid_fresh in Hi. lia.
Qed.

Lemma insert_policies_length rows : forall t,
  List.length (insert_policies rows t) = (List.length t + List.length rows)%nat.
Proof.
  induction rows as [| [[age car] prem] rows IH]; intros t; cbn.
  - lia.
  - rewrite IH, length_app. cbn. lia.
Qed.

Lemma insert_claims_In rows : forall t c,
  In c (insert_claims rows t) ->
  In c t \/ In (Claim.policy_id c, Claim.claim_amount c, Claim.claim_date c) rows.
Proof.
  induction rows as [| [[pid amt] date] rows IH]; intros t c Hc; cbn in Hc.
  - now left.
  - apply IH in Hc. destruct Hc as [Hc | Hc]; [| right; now right].
    apply in_app_or in Hc. destruct Hc as [Hc | [<- | []]]; [now left |].
    right. now left.
Qed.

(** [insert_claims] stores the amounts of the rows, in order. *)
Lemma insert_claims_amounts rows : forall t,
  map Claim.claim_amount (insert_claims rows t) =
  map Claim.claim_amount t ++ map (fun r => snd (fst r)) rows.
Proof.
  induction rows as [| [[pid amt] date] rows IH]; intros t; cbn.
  - now rewrite app_nil_r.
  - rewrite IH, map_app, <- app_assoc. reflexivity.
Qed.

Section GeneratorFacts.

Context {Rng : Type} {np : Numpy Rng}.

Lemma policy_rows_range (L : NumpyLaws np) (n : nat) (g : Rng) :
  forall age car prem,
    In (age, car, prem) (fst (policy_rows n g)) ->
    18 <= age < 80 /\ (400 <= prem <= 4000)%Q.
Proof.
  intros age car prem. unfold policy_rows, bind, ret.
  pose proof (draws_Forall (fun a => 18 <= a < 80) (integers 18 80)
                (fun g => integers_range 18 80 g ltac:(lia)) n g) as Hages.
  destruct (draws n (integers 18 80) g) as [ages g1].
  destruct (draws n (choice _ _) g1) as [cars g2].
  destruct (draws n (normal 1200 250) g2) as [raw g3].
  cbn [fst snd] in *. intros Hin.
  pose proof (in_combine_l _ _ _ _ Hin) as Hl.
  apply in_combine_l in Hl.
  apply in_combine_r in Hin.
  split.
  - rewrite Forall_forall in Hages. now apply Hages.
  - apply in_map_iff in Hin. destruct Hin as [x [<- _]].
    pose proof (clip_range 400 4000 x ltac:(discriminate)) as [Hlo Hhi].
    split.
    + apply (round2_lower 400). exact Hlo.
    + apply (round2_upper 4000). exact Hhi.
Qed.

Lemma claims_of_policy_rows (L : NumpyLaws np) pid age car g :
  Forall (fun r => fst (fst r) = pid /\
                   exists amt, (0 < amt)%Q /\ snd (fst r) = Real.round2 amt)
         (fst (claims_of_policy pid age car g)).
Proof.
  unfold claims_of_policy, bind, ret.
  destruct (poisson (base_lambda car age) g) as [k g1].
  pose proof (draws_Forall (fun a => (0 < a)%Q) (lognormal mu sigma)
                (fun g => lognormal_pos mu sigma g) k g1) as Hpos.
  destruct (draws k (lognormal mu sigma) g1) as [amts g2].
  cbn [fst snd] in *.
  induction Hpos as [| a amts Ha _ IH]; cbn; constructor; [| exact IH].
  cbn. split; [reflexivity | now exists a].
Qed.

Lemma claims_rows_rows (L : NumpyLaws np) info : forall g,
  Forall (fun r => In (fst (fst r)) (map (fun i => fst (fst i)) info) /\
                   exists amt, (0 < amt)%Q /\ snd (fst r) = Real.round2 amt)
         (fst (claims_rows info g)).
Proof.
  induction info as [| [[pid age] car] info IH]; intros g; cbn [claims_rows].
  - constructor.
  - unfold bind, ret.
    pose proof (claims_of_policy_rows L pid age car g) as Hhere.
    destruct (claims_of_policy pid age car g) as [here g1].
    specialize (IH g1). destruct (claims_rows info g1) as [later g2].
    cbn [fst snd] in *. apply Forall_app. split.
    + eapply Forall_impl; [| exact Hhere]. cbn.
      intros r [Hr Ha]. split; [now left | exact Ha].
    + eapply Forall_impl; [| exact IH]. cbn.
      intros r [Hr Ha]. split; [now right | exact Ha].
Qed.

(** Referential integrity needs nothing of the distributions. *)
Lemma claims_rows_pids info : forall g,
  Forall (fun r => In (fst (fst r)) (map (fun i => fst (fst i)) info))
         (fst (claims_rows info g)).
Proof.
  induction info as [| [[pid age] car] info IH]; intros g; cbn [claims_rows].
  - constructor.
  - unfold bind, ret, claims_of_policy at 1.
    unfold bind, ret.
    destruct (poisson (base_lambda car age) g) as [k g1].
    destruct (draws k (lognormal mu sigma) g1) as [amts g2].
    specialize (IH g2). destruct (claims_rows info g2) as [later g3].
    cbn [fst snd] in *. apply Forall_app. split.
    + apply Forall_forall. intros r Hr. apply in_map_iff in Hr.
      destruct Hr as [a [<- _]]. now left.
    + eapply Forall_impl; [| exact IH]. cbn. intros r Hr. now right.
Qed.

(** The tables of a generated dataset, by components. *)
Lemma Generator_tables seed n :
  Policies (fst (Generator seed n)) =
    insert_policies (fst (policy_rows n (default_rng seed))) [] /\
  exists g,
    snd (Generator seed n) = fst (claims_rows (policy_info (fst (Generator seed n))) g) /\
    Claims (fst (Generator seed n)) = insert_claims (snd (Generator seed n)) [].
Proof.
  unfold Generator, generate, bind, ret.
  destruct (policy_rows n (default_rng seed)) as [rows g1].
  cbn [fst snd Policies Claims empty_db].
  match goal with |- context [claims_rows ?i g1] => destruct (claims_rows i g1) as [crows g2] eqn:E end.
  cbn [fst snd Policies Claims]. split; [reflexivity |].
  exists g1. unfold policy_info at 1. cbn [Policies]. 
  unfold policy_info in E. cbn [Policies] in E. rewrite E. split; reflexivity.
Qed.

Lemma Generator_NoDup seed n :
  NoDup (map Policy.policy_id (Policies (fst (Generator seed n)))).
Proof.
  destruct (Generator_tables seed n) as [-> _].
  apply insert_policies_NoDup. constructor.
Qed.

Lemma Generator_policy_count seed n :
  List.length (Policies (fst (Generator seed n))) = n.
Proof.
  destruct (Generator_tables seed n) as [-> _].
  rewrite insert_policies_length. cbn [List.length].
  unfold policy_rows, bind, ret.
  pose proof (draws_length (integers 18 80) n (default_rng seed)) as H1.
  destruct (draws n (integers 18 80) (default_rng seed)) as [ages g1].
  pose proof (draws_length (choice ["Sedan"; "SUV"; "Truck"; "Sports"]%string
                               [0.4; 0.3; 0.2; 0.1]%Q) n g1) as H2.
  destruct (draws n (choice _ _) g1) as [cars g2].
  pose proof (draws_length (normal 1200 250) n g2) as H3.
  destruct (draws n (normal 1200 250) g2) as [raw g3].
  cbn [fst snd] in *.
  rewrite !length_combine, length_map. lia.
Qed.

(** Every claim of a generated dataset refers to a generated policy. *)
Lemma Generator_foreign_key seed n :
  forall c, In c (Claims (fst (Generator seed n))) ->
    In (Claim.policy_id c) (map Policy.policy_id (Policies (fst (Generator seed n)))).
Proof.
  intros c Hc.
  destruct (Generator_tables seed n) as [_ [g [Hrows Hclaims]]].
  rewrite Hclaims in Hc. apply insert_claims_In in Hc.
  destruct Hc as [[] | Hc].
  rewrite Hrows in Hc.
  pose proof (claims_rows_pids (policy_info (fst (Generator seed n))) g) as HF.
  rewrite Forall_forall in HF. apply HF in Hc. cbn [fst] in Hc.
  unfold policy_info in Hc. rewrite map_map in Hc. exact Hc.
Qed.

End GeneratorFacts.

(** ** Sums over groups *)

(** Sums in a commutative monoid up to an equivalence: [Q] with [Qplus]
    and [==] for amounts, [Z] with [+] and [=] for counts. *)
Section Partition.

Context {M : Type} (eqv : M -> M -> Prop) (op : M -> M -> M) (e : M).
Context {eqv_equiv : Equivalence eqv}.
Context {op_proper : Proper (eqv ==> eqv ==> eqv) op}.
Hypothesis op_assoc : forall a b c, eqv (op a (op b c)) (op (op a b) c).
Hypothesis op_comm : forall a b, eqv (op a b) (op b a).
Hypothesis op_unit : forall a, eqv (op e a) a.

Local Abbreviation sum := (msum op e).

Lemma msum_cons a l : sum (a :: l) = op a (sum l).
Proof. reflexivity. Qed.

Lemma msum_app l1 l2 : eqv (sum (l1 ++ l2)) (op (sum l1) (sum l2)).
Proof.
  induction l1 as [| a l1 IH]; cbn.
  - symmetry. apply op_unit.
  - rewrite IH. apply op_assoc.
Qed.

Lemma msum_map_ext {A} (f g : A -> M) (l : list A) :
  (forall x, In x l -> eqv (f x) (g x)) ->
  eqv (sum (map f l)) (sum (map g l)).
Proof.
  induction l as [| a l IH]; intros H; cbn.
  - reflexivity.
  - rewrite (H a (or_introl eq_refl)), IH; [reflexivity |].
    intros x Hx. apply H. now right.
Qed.

Lemma msum_map_unit {A} (l : list A) : eqv (sum (map (fun _ => e) l)) e.
Proof.
  induction l as [| a l IH]; cbn; [reflexivity |].
  rewrite IH. apply op_unit.
Qed.

Lemma msum_map_op {A} (f g : A -> M) (l : list A) :
  eqv (sum (map (fun x => op (f x) (g x)) l))
      (op (sum (map f l)) (sum (map g l))).
Proof.
  induction l as [| a l IH]; cbn.
  - symmetry. apply op_unit.
  - rewrite IH.
    rewrite <- (op_assoc (f a) (g a)), (op_assoc (g a)),
      (op_comm (g a)), <- (op_assoc (sum (map f l))), op_assoc.
    reflexivity.
Qed.

Lemma msum_Permutation l1 l2 : Permutation l1 l2 -> eqv (sum l1) (sum l2).
Proof.
  induction 1 as [| x l1 l2 _ IH | x y l | l1 l2 l3 _ IH1 _ IH2]; cbn.
  - reflexivity.
  - now rewrite IH.
  - rewrite !op_assoc, (op_comm y x). reflexivity.
  - now rewrite IH1.
Qed.

Context {A K : Type} (eqb : K -> K -> bool) (key : A -> K).
Hypothesis eqb_eq : forall a b, eqb a b = true <-> a = b.

Lemma eqb_refl_true (k : K) : eqb k k = true.
Proof. now apply eqb_eq. Qed.

Lemma eqb_neq_false (k k' : K) : k <> k' -> eqb k k' = false.
Proof.
  intros Hne. destruct (eqb k k') eqn:E; [| reflexivity].
  apply eqb_eq in E. contradiction.
Qed.

Lemma msum_select_none (v : M) (k : K) (ks : list K) :
  ~ In k ks ->
  eqv (sum (map (fun k' => if eqb k k' then v else e) ks)) e.
Proof.
  induction ks as [| k0 ks IH]; intros Hnotin; cbn.
  - reflexivity.
  - rewrite eqb_neq_false by (intros ->; apply Hnotin; now left).
    rewrite IH by (intros Hin; apply Hnotin; now right).
    apply op_unit.
Qed.

(** Among distinct keys exactly one selects a given row. *)
Lemma msum_select (v : M) (k : K) (ks : list K) :
  NoDup ks -> In k ks ->
  eqv (sum (map (fun k' => if eqb k k' then v else e) ks)) v.
Proof.
  induction ks as [| k0 ks IH]; intros Hnd Hin; [contradiction |].
  inversion Hnd as [| ? ? Hnotin Hnd']; subst.
  cbn [map]. rewrite msum_cons.
  destruct Hin as [-> | Hin].
  - rewrite eqb_refl_true, msum_select_none by exact Hnotin.
    rewrite op_comm. apply op_unit.
  - rewrite eqb_neq_false by (intros ->; contradiction).
    rewrite (IH Hnd' Hin). apply op_unit.
Qed.

(** Summing group by group, over distinct keys that cover the rows, is
    summing over all rows. *)
Lemma partition_sum (f : A -> M) (ks : list K) (rows : list A) :
  NoDup ks ->
  (forall r, In r rows -> In (key r) ks) ->
  eqv (sum (map (fun k => sum (map f (filter (fun r => eqb (key r) k) rows))) ks))
      (sum (map f rows)).
Proof.
  intros Hnd. induction rows as [| r rows IH]; intros Hcover.
  - cbn [filter map]. apply msum_map_unit.
  - transitivity
      (sum (map (fun k => op (if eqb (key r) k then f r else e)
                              (sum (map f (filter (fun r => eqb (key r) k) rows))))
                 ks)).
    + apply msum_map_ext. intros k _. cbn [filter].
      destruct (eqb (key r) k); cbn [map msum fold_right]; [reflexivity |].
      symmetry. apply op_unit.
    + rewrite msum_map_op.
      rewrite msum_select by (try exact Hnd; apply Hcover; now left).
      rewrite IH by (intros r' Hr'; apply Hcover; now right).
      reflexivity.
Qed.

End Partition.

(** ** GROUP BY *)

Lemma NoDup_map_filter {A K} (f : A -> K) (p : A -> bool) (l : list A) :
  NoDup (map f l) -> NoDup (map f (filter p l)).
Proof.
  induction l as [| a l IH]; cbn; intros H; [constructor |].
  inversion H as [| ? ? Hnotin Hnd]; subst.
  destruct (p a); cbn; [| now apply IH].
  constructor; [| now apply IH].
  intros Hin. apply Hnotin. apply in_map_iff in Hin.
  destruct Hin as [x [Hx Hin]]. apply filter_In in Hin.
  apply in_map_iff. exists x. tauto.
Qed.

Lemma NoDup_map_injective {A K} (f : A -> K) (l : list A) :
  NoDup (map f l) ->
  forall x y, In x l -> In y l -> f x = f y -> x = y.
Proof.
  induction l as [| a l IH]; cbn; intros H x y Hx Hy Hxy; [contradiction |].
  inversion H as [| ? ? Hnotin Hnd]; subst.
  destruct Hx as [-> | Hx], Hy as [-> | Hy].
  - reflexivity.
  - exfalso. apply Hnotin. rewrite Hxy. now apply in_map.
  - exfalso. apply Hnotin. rewrite <- Hxy. now apply in_map.
  - now apply IH.
Qed.

Section GroupBy.

Context {A K : Type} (eqb : K -> K -> bool) (key : A -> K).

Lemma representatives_In (rows : list A) :
  forall r, In r (representatives eqb key rows) -> In r rows.
Proof.
  induction rows as [| r0 rows IH]; cbn; intros r Hr; [exact Hr |].
  destruct Hr as [-> | Hr]; [now left |].
  apply filter_In in Hr. right. apply IH. tauto.
Qed.

Lemma group_by_length (rows : list A) :
  List.length (group_by eqb key rows) =
  List.length (representatives eqb key rows).
Proof. unfold group_by. apply length_map. Qed.

(** Two ways of keying the rows that agree on them give the same
    groups. *)
Lemma representatives_ext {K'} (eqb' : K' -> K' -> bool) (key' : A -> K')
      (rows : list A) :
  (forall r r', In r rows -> In r' rows ->
                eqb (key r') (key r) = eqb' (key' r') (key' r)) ->
  representatives eqb key rows = representatives eqb' key' rows.
Proof.
  induction rows as [| r0 rows IH]; cbn [representatives]; intros H.
  - reflexivity.
  - rewrite <- IH by (intros r r' Hr Hr'; apply H; now right).
    f_equal. apply filter_ext_in. intros r' Hr'.
    apply representatives_In in Hr'.
    rewrite (H r0 r'); [reflexivity | now left | now right].
Qed.

Hypothesis eqb_eq : forall a b, eqb a b = true <-> a = b.

Lemma representatives_cover (rows : list A) :
  forall r, In r rows -> In (key r) (map key (representatives eqb key rows)).
Proof.
  induction rows as [| r0 rows IH]; cbn; intros r Hr; [exact Hr |].
  destruct Hr as [-> | Hr]; [now left |].
  destruct (eqb (key r) (key r0)) eqn:E.
  - left. symmetry. now apply eqb_eq.
  - right. apply IH in Hr. apply in_map_iff in Hr.
    destruct Hr as [rep [Hk Hrep]].
    apply in_map_iff. exists rep. split; [exact Hk |].
    apply filter_In. split; [exact Hrep |]. now rewrite Hk, E.
Qed.

Lemma representatives_NoDup (rows : list A) :
  NoDup (map key (representatives eqb key rows)).
Proof.
  induction rows as [| r0 rows IH]; cbn; constructor.
  - intros Hin. apply in_map_iff in Hin. destruct Hin as [x [Hx Hin]].
    apply filter_In in Hin. destruct Hin as [_ Hneq].
    rewrite Hx, (eqb_refl_true eqb eqb_eq) in Hneq. discriminate.
  - now apply NoDup_map_filter.
Qed.

(** The keys of the groups are exactly the keys of the rows. *)
Lemma representatives_keys (rows : list A) (k : K) :
  In k (map key (representatives eqb key rows)) <-> In k (map key rows).
Proof.
  split; intros H; apply in_map_iff in H; destruct H as [r [<- Hr]].
  - apply in_map. now apply representatives_In.
  - now apply representatives_cover.
Qed.

(** An aggregate summed over the groups is the sum over the rows. *)
Lemma group_by_msum {M} (eqv : M -> M -> Prop) (op : M -> M -> M) (e : M)
      {eqv_equiv : Equivalence eqv}
      {op_proper : Proper (eqv ==> eqv ==> eqv) op}
      (op_assoc : forall a b c, eqv (op a (op b c)) (op (op a b) c))
      (op_comm : forall a b, eqv (op a b) (op b a))
      (op_unit : forall a, eqv (op e a) a)
      (f : A -> M) (rows : list A) :
  eqv (msum op e (map (fun g => msum op e (map f (snd g))) (group_by eqb key rows)))
      (msum op e (map f rows)).
Proof.
  unfold group_by. rewrite map_map. cbn [snd].
  rewrite <- (partition_sum eqv op e op_assoc op_comm op_unit eqb key eqb_eq
                f (map key (representatives eqb key rows)) rows).
  - rewrite map_map. reflexivity.
  - apply representatives_NoDup.
  - apply representatives_cover.
Qed.

End GroupBy.

(** The two monoids in use. *)
Lemma Qplus_assoc' a b c : (a + (b + c) == (a + b) + c)%Q.
Proof. ring. Qed.

Lemma Zplus_assoc' a b c : a + (b + c) = (a + b) + c.
Proof. ring. Qed.

Lemma zsum_Permutation (l1 l2 : list Z) : Permutation l1 l2 -> zsum l1 = zsum l2.
Proof. apply (msum_Permutation eq Z.add 0 Zplus_assoc' Z.add_comm). Qed.

Lemma qsum_app (l1 l2 : list Q) :
  (Real.qsum (l1 ++ l2) == Real.qsum l1 + Real.qsum l2)%Q.
Proof. apply (msum_app Qeq Qplus 0%Q Qplus_assoc' Qplus_0_l). Qed.

Lemma qsum_map_ext {A} (f g : A -> Q) (l : list A) :
  (forall x, In x l -> (f x == g x)%Q) ->
  (Real.qsum (map f l) == Real.qsum (map g l))%Q.
Proof. apply (msum_map_ext Qeq Qplus 0%Q). Qed.

Lemma qsum_select (v : Q) (k : Z) (ks : list Z) :
  NoDup ks -> In k ks ->
  (Real.qsum (map (fun k' => if k =? k' then v else 0) ks) == v)%Q.
Proof. apply (msum_select Qeq Qplus 0%Q Qplus_comm Qplus_0_l Z.eqb Z.eqb_eq). Qed.

Lemma zsum_ones {A} (l : list A) : zsum (map (fun _ => 1) l) = Z.of_nat (List.length l).
Proof.
  induction l as [| a l IH]; [reflexivity |].
  cbn [map zsum fold_right List.length]. fold (zsum (map (fun _ : A => 1) l)).
  rewrite IH. lia.
Qed.

Lemma group_by_qsum {A K} (eqb : K -> K -> bool) (key : A -> K)
      (eqb_eq : forall a b, eqb a b = true <-> a = b) (f : A -> Q) (rows : list A) :
  (Real.qsum (map (fun g => Real.qsum (map f (snd g))) (group_by eqb key rows))
   == Real.qsum (map f rows))%Q.
Proof.
  apply (group_by_msum eqb key eqb_eq Qeq Qplus 0%Q
           Qplus_assoc' Qplus_comm Qplus_0_l).
Qed.

Lemma group_by_count {A K} (eqb : K -> K -> bool) (key : A -> K)
      (eqb_eq : forall a b, eqb a b = true <-> a = b) (rows : list A) :
  zsum (map (fun g => COUNT_star (snd g)) (group_by eqb key rows))
  = Z.of_nat (List.length rows).
Proof.
  transitivity (msum Z.add 0 (map (fun _ => 1) rows)); [| apply zsum_ones].
  rewrite <- (group_by_msum eqb key eqb_eq eq Z.add 0
                Zplus_assoc' Z.add_comm Z.add_0_l (fun _ => 1) rows).
  unfold zsum, msum. f_equal. apply map_ext. intros [rep g]. cbn [snd].
  unfold COUNT_star. symmetry. apply zsum_ones.
Qed.

(** ** LEFT JOIN *)

Section LeftJoin.

Context {A B : Type} (on : A -> B -> bool).

Lemma left_join_In (l : list A) (r : list B) (a : A) (ob : option B) :
  In (a, ob) (left_join on l r) ->
  In a l /\
  match ob with
  | Some b => In b r /\ on a b = true
  | None => filter (on a) r = []
  end.
Proof.
  unfold left_join. intros H. apply in_flat_map in H.
  destruct H as [a' [Ha' H]].
  destruct (filter (on a') r) as [| b0 m] eqn:E.
  - destruct H as [H | []]. inversion H; subst. now split.
  - apply in_map_iff in H. destruct H as [b [H Hb]].
    inversion H; subst. split; [exact Ha' |].
    rewrite <- E in Hb. apply filter_In in Hb. exact Hb.
Qed.

Lemma left_join_cover (l : list A) (r : list B) (a : A) :
  In a l -> exists ob, In (a, ob) (left_join on l r).
Proof.
  intros Ha. unfold left_join.
  destruct (filter (on a) r) as [| b0 m] eqn:E.
  - exists None. apply in_flat_map. exists a. split; [exact Ha |].
    rewrite E. now left.
  - exists (Some b0). apply in_flat_map. exists a. split; [exact Ha |].
    rewrite E. now left.
Qed.

(** The left column of the join repeats the left table's. *)
Lemma left_join_left {K} (f : A -> K) (l : list A) (r : list B) (k : K) :
  In k (map (fun x => f (fst x)) (left_join on l r)) <-> In k (map f l).
Proof.
  split; intros H; apply in_map_iff in H.
  - destruct H as [[a ob] [<- H]]. apply left_join_In in H.
    apply in_map. tauto.
  - destruct H as [a [<- Ha]].
    destruct (left_join_cover l r a Ha) as [ob Hob].
    apply in_map_iff. now exists (a, ob).
Qed.

End LeftJoin.

(** ** ORDER BY *)

Section OrderBy.

Context {A : Type} (le : A -> A -> bool).

Lemma insert_sorted_Permutation (x : A) (l : list A) :
  Permutation (insert_sorted le x l) (x :: l).
Proof.
  induction l as [| y l IH]; cbn.
  - reflexivity.
  - destruct (le x y); [reflexivity |].
    rewrite IH. apply perm_swap.
Qed.

Lemma order_by_Permutation (l : list A) : Permutation (order_by le l) l.
Proof.
  induction l as [| x l IH]; cbn.
  - reflexivity.
  - fold (order_by le l). rewrite insert_sorted_Permutation. now constructor.
Qed.

Lemma order_by_length (l : list A) :
  List.length (order_by le l) = List.length l.
Proof. apply Permutation_length, order_by_Permutation. Qed.

Hypothesis le_total : forall a b, le a b = false -> le b a = true.

Lemma insert_sorted_Sorted (x : A) (l : list A) :
  Sorted (fun a b => le a b = true) l ->
  Sorted (fun a b => le a b = true) (insert_sorted le x l).
Proof.
  induction l as [| y l IH]; cbn; intros Hs.
  - repeat constructor.
  - destruct (le x y) eqn:E.
    + constructor; [exact Hs | now constructor].
    + inversion Hs as [| ? ? Hs' Hhd]; subst.
      constructor; [now apply IH |].
      destruct l as [| z l]; cbn.
      * constructor. now apply le_total.
      * destruct (le x z); constructor.
        -- now apply le_total.
        -- now inversion Hhd.
Qed.

Lemma order_by_Sorted (l : list A) :
  Sorted (fun a b => le a b = true) (order_by le l).
Proof.
  induction l as [| x l IH]; cbn.
  - constructor.
  - now apply insert_sorted_Sorted.
Qed.

End OrderBy.

(** Sorting a sorted list changes nothing. *)
Lemma order_by_sorted {A} (le : A -> A -> bool) (l : list A) :
  StronglySorted (fun a b => le a b = true) l -> order_by le l = l.
Proof.
  induction 1 as [| a l _ IH Hall]; [reflexivity |].
  cbn [order_by fold_right]. fold (order_by le l). rewrite IH.
  destruct Hall as [| b l Hab _]; cbn; [reflexivity |].
  now rewrite Hab.
Qed.

Lemma StronglySorted_unmap {A B} (f : A -> B) (R : B -> B -> Prop) (l : list A) :
  StronglySorted R (map f l) -> StronglySorted (fun a b => R (f a) (f b)) l.
Proof.
  induction l as [| a l IH]; cbn; intros H; [constructor |].
  inversion H as [| ? ? Hs Hall]; subst.
  constructor; [now apply IH |].
  rewrite Forall_forall in *. intros x Hx. apply Hall. now apply in_map.
Qed.

Lemma Sorted_impl {A} (R R' : A -> A -> Prop) (l : list A) :
  (forall a b, R a b -> R' a b) -> Sorted R l -> Sorted R' l.
Proof.
  intros HR. induction 1 as [| a l _ IH Hhd]; constructor; [exact IH |].
  destruct Hhd; constructor. now apply HR.
Qed.

Lemma StronglySorted_impl {A} (R R' : A -> A -> Prop) (l : list A) :
  (forall a b, R a b -> R' a b) -> StronglySorted R l -> StronglySorted R' l.
Proof.
  intros HR. induction 1 as [| a l _ IH Hall]; constructor; [exact IH |].
  eapply Forall_impl; [| exact Hall]. intros b. apply HR.
Qed.

Lemma In_firstn {A} (n : nat) (l : list A) (x : A) :
  In x (firstn n l) -> In x l.
Proof.
  intros H. rewrite <- (firstn_skipn n l). apply in_or_app. now left.
Qed.

Lemma StronglySorted_firstn {A} (R : A -> A -> Prop) (n : nat) (l : list A) :
  StronglySorted R l -> StronglySorted R (firstn n l).
Proof.
  revert l. induction n as [| n IH]; intros l Hs; cbn; [constructor |].
  destruct l as [| a l]; [constructor |].
  inversion Hs as [| ? ? Hs' Hall]; subst.
  constructor; [now apply IH |].
  rewrite Forall_forall in *. intros x Hx. apply Hall.
  eapply In_firstn, Hx.
Qed.

(** ** The per-policy aggregation *)

Lemma qsum_non_null (l : list (option Q)) :
  (Real.qsum (non_null l) == Real.qsum (map (fun o => COALESCE o 0%Q) l))%Q.
Proof.
  induction l as [| [v |] l IH]; cbn; [reflexivity | |].
  - fold (non_null l). fold (Real.qsum (non_null l)).
    fold (Real.qsum (map (fun o => COALESCE o 0%Q) l)). now rewrite IH.
  - fold (non_null l). fold (Real.qsum (non_null l)).
    fold (Real.qsum (map (fun o => COALESCE o 0%Q) l)).
    rewrite IH. now rewrite Qplus_0_l.
Qed.

Lemma COALESCE_SUM (l : list (option Q)) :
  (COALESCE (SUM l) 0 == Real.qsum (map (fun o => COALESCE o 0%Q) l))%Q.
Proof.
  rewrite <- qsum_non_null. unfold SUM.
  destruct (non_null l); reflexivity.
Qed.

Lemma group_total (rows : list (Policy.row * option Claim.row)) :
  (COALESCE (SUM (map c_claim_amount rows)) 0
   == Real.qsum (map amount_or_zero rows))%Q.
Proof. rewrite COALESCE_SUM, map_map. reflexivity. Qed.

Lemma non_null_unmatched {V} (f : Claim.row -> V)
      (rows : list (Policy.row * option Claim.row)) :
  Forall (fun r => snd r = None) rows ->
  non_null (map (fun r => option_map f (snd r)) rows) = [].
Proof.
  induction 1 as [| [p oc] rows Hr _ IH]; [reflexivity |].
  cbn in Hr. subst oc. exact IH.
Qed.

(** A group of unmatched rows aggregates to NULL and to a zero count. *)
Lemma unmatched_group (rows : list (Policy.row * option Claim.row)) :
  Forall (fun r => snd r = None) rows ->
  SUM (map c_claim_amount rows) = None /\ COUNT (map c_claim_id rows) = 0.
Proof.
  intros H. unfold SUM, COUNT, c_claim_amount, c_claim_id.
  now rewrite !non_null_unmatched.
Qed.

Lemma per_policy_ids (db : Database) :
  map PerPolicy.policy_id (per_policy_rows db) =
  map policy_key (representatives Z.eqb policy_key (joined db)).
Proof.
  unfold per_policy_rows, group_by. rewrite !map_map. reflexivity.
Qed.

Lemma per_policy_ids_NoDup (db : Database) :
  NoDup (map PerPolicy.policy_id (per_policy_rows db)).
Proof. rewrite per_policy_ids. apply representatives_NoDup, Z.eqb_eq. Qed.

Lemma per_policy_ids_In (db : Database) (k : Z) :
  In k (map PerPolicy.policy_id (per_policy_rows db)) <->
  In k (map Policy.policy_id (Policies db)).
Proof.
  rewrite per_policy_ids, (representatives_keys Z.eqb policy_key Z.eqb_eq).
  apply (left_join_left _ Policy.policy_id).
Qed.

(** With a primary key on [Policies], one output row per policy. *)
Lemma per_policy_Permutation (db : Database) :
  NoDup (map Policy.policy_id (Policies db)) ->
  Permutation (map PerPolicy.policy_id (per_policy_rows db))
              (map Policy.policy_id (Policies db)).
Proof.
  intros Hnd. apply NoDup_Permutation.
  - apply per_policy_ids_NoDup.
  - exact Hnd.
  - apply per_policy_ids_In.
Qed.

Lemma per_policy_length (db : Database) :
  NoDup (map Policy.policy_id (Policies db)) ->
  List.length (per_policy_rows db) = List.length (Policies db).
Proof.
  intros Hnd. apply per_policy_Permutation, Permutation_length in Hnd.
  now rewrite !length_map in Hnd.
Qed.

(** The row of a policy without claims. *)
Lemma per_policy_claimless (db : Database) (p : Policy.row) :
  NoDup (map Policy.policy_id (Policies db)) ->
  In p (Policies db) ->
  (forall c, In c (Claims db) -> Claim.policy_id c <> Policy.policy_id p) ->
  In (PerPolicy.mk (Policy.policy_id p) (Policy.customer_age p)
                   (Policy.car_type p) (Policy.premium p) 0%Q 0)
     (per_policy_rows db).
Proof.
  intros Hnd Hp Hnone.
  assert (Hk : In (Policy.policy_id p)
                  (map policy_key (representatives Z.eqb policy_key (joined db)))).
  { apply (representatives_keys Z.eqb policy_key Z.eqb_eq).
    apply (left_join_left _ Policy.policy_id). now apply in_map. }
  apply in_map_iff in Hk. destruct Hk as [[p' oc] [Hid Hrep]].
  unfold policy_key in Hid. cbn [fst] in Hid.
  pose proof (representatives_In _ _ _ _ Hrep) as Hj.
  apply left_join_In in Hj. destruct Hj as [Hp' _].
  assert (p' = p) by (eapply NoDup_map_injective; eauto). subst p'.
  unfold per_policy_rows, group_by. rewrite map_map.
  apply in_map_iff. exists (p, oc). split; [| exact Hrep].
  destruct (unmatched_group
              (filter (fun r => policy_key r =? policy_key (p, oc)) (joined db)))
    as [E1 E2].
  - apply Forall_forall. intros [q [c |]] Hr; [| reflexivity]. exfalso.
    apply filter_In in Hr. destruct Hr as [Hr Hq].
    apply left_join_In in Hr. destruct Hr as [_ [Hc Hon]].
    unfold policy_key in Hq. cbn [fst] in Hq.
    apply Z.eqb_eq in Hq. apply Z.eqb_eq in Hon.
    apply (Hnone c Hc). congruence.
  - rewrite E1, E2. reflexivity.
Qed.

(** The total of a policy's row is the sum of the claims that refer to
    it. *)
Lemma joined_group_amount (k : Z) (cs : list Claim.row) (ps : list Policy.row) :
  (Real.qsum (map amount_or_zero
       (filter (fun r => policy_key r =? k)
               (left_join (fun p c => Policy.policy_id p =? Claim.policy_id c) ps cs)))
   == Real.qsum
        (map (fun k' => if k =? k'
                        then Real.qsum (map Claim.claim_amount
                                         (filter (fun c => k =? Claim.policy_id c) cs))
                        else 0)
             (map Policy.policy_id ps)))%Q.
Proof.
  induction ps as [| p ps IH]; [reflexivity |].
  cbn [left_join flat_map map]. fold (left_join (fun p c => Policy.policy_id p =? Claim.policy_id c) ps cs).
  rewrite filter_app, map_app, qsum_app, IH. clear IH.
  cbn [Real.qsum fold_right]. apply Qplus_comp; [| reflexivity].
  assert (Hrows : forall m : list Claim.row,
             Forall (fun r : Policy.row * option Claim.row => fst r = p)
                    (map (fun b => (p, Some b)) m)).
  { intros m. apply Forall_forall. intros r Hr. apply in_map_iff in Hr.
    destruct Hr as [c [<- _]]. reflexivity. }
  destruct (k =? Policy.policy_id p) eqn:E.
  - apply Z.eqb_eq in E. subst k.
    assert (Hall : forall l : list (Policy.row * option Claim.row),
               Forall (fun r => fst r = p) l ->
               filter (fun r => policy_key r =? Policy.policy_id p) l = l).
    { intros l Hl. induction Hl as [| r l Hr _ IHl]; [reflexivity |].
      cbn. unfold policy_key. rewrite Hr, Z.eqb_refl. now f_equal. }
    destruct (filter (fun c => Policy.policy_id p =? Claim.policy_id c) cs) as [| c0 m].
    + rewrite Hall by (repeat constructor). reflexivity.
    + rewrite Hall.
      * cbn [map]. rewrite map_map. reflexivity.
      * constructor; [reflexivity | apply Hrows].
  - assert (Hnone : forall l : list (Policy.row * option Claim.row),
               Forall (fun r => fst r = p) l ->
               filter (fun r => policy_key r =? k) l = []).
    { intros l Hl. induction Hl as [| r l Hr _ IHl]; [reflexivity |].
      cbn. unfold policy_key. rewrite Hr, Z.eqb_sym, E. exact IHl. }
    rewrite Hnone; [reflexivity |].
    destruct (filter _ cs) as [| c0 m]; [repeat constructor |].
    constructor; [reflexivity | apply Hrows].
Qed.

Lemma per_policy_total (db : Database) (row : PerPolicy.row) :
  NoDup (map Policy.policy_id (Policies db)) ->
  In row (per_policy_rows db) ->
  (PerPolicy.total_claims_amount row
   == Real.qsum (map Claim.claim_amount
        (filter (fun c => PerPolicy.policy_id row =? Claim.policy_id c) (Claims db))))%Q.
Proof.
  intros Hnd Hrow.
  assert (Hid : In (PerPolicy.policy_id row) (map Policy.policy_id (Policies db))).
  { apply per_policy_ids_In. now apply in_map. }
  unfold per_policy_rows, group_by in Hrow. rewrite map_map in Hrow.
  apply in_map_iff in Hrow. destruct Hrow as [rep [<- Hrep]].
  cbn [PerPolicy.total_claims_amount PerPolicy.policy_id] in *.
  rewrite group_total. unfold joined.
  rewrite (joined_group_amount (policy_key rep)).
  apply qsum_select; assumption.
Qed.

(** ** Scripted datasets *)

Lemma Scripted_laws (counts : nat -> nat) (severity : nat -> Q) :
  (forall g, (0 < severity g)%Q) -> NumpyLaws (Scripted.numpy counts severity).
Proof.
  intros Hpos. split.
  - intros low high g Hlh. cbn.
    pose proof (Z.mod_pos_bound (Z.of_nat g) (high - low) ltac:(lia)). lia.
  - intros m s g. cbn. apply Hpos.
Qed.

Lemma quiet_laws : NumpyLaws quiet.
Proof. apply Scripted_laws. intros g. reflexivity. Qed.

Lemma busy_laws : NumpyLaws busy.
Proof.
  apply Scripted_laws. intros g.
  apply Qlt_le_trans with 7000%Q; [reflexivity |].
  rewrite <- (Qplus_0_r 7000) at 1. apply Qplus_le_r.
  apply Qle_shift_div_l; [reflexivity |].
  change (0 * 3)%Q with (inject_Z 0). rewrite <- Zle_Qle. lia.
Qed.


Lemma Qle_bool_total (x y : Q) : Qle_bool x y = false -> Qle_bool y x = true.
Proof.
  intros H. apply Qle_bool_iff.
  destruct (Qlt_le_dec y x) as [Hlt | Hle].
  - now apply Qlt_le_weak.
  - apply Qle_bool_iff in Hle. congruence.
Qed.

Lemma top_policies_Sorted (db : Database) :
  StronglySorted
    (fun a b => (PerPolicy.total_claims_amount b <= PerPolicy.total_claims_amount a)%Q)
    (q_top_policies db).
Proof.
  unfold q_top_policies, LIMIT. apply StronglySorted_firstn.
  apply Sorted_StronglySorted.
  - intros a b c Hab Hbc. eapply Qle_trans; eassumption.
  - eapply Sorted_impl; [| apply order_by_Sorted].
    + intros a b H. unfold desc in H. apply Qle_bool_iff. exact H.
    + intros a b. unfold desc. apply Qle_bool_total.
Qed.

(** ** The claims *)

Section Claims.

Context {Rng : Type} {np : Numpy Rng}.

(** C3. In every generated dataset the per-policy table has one row per
    policy: as many rows as policies, the policy ids of the rows are
    those of the policies without repetition, and a policy that no claim
    refers to has its own attributes with total_claims_amount 0.0 and
    claims_count 0. *)
Theorem per_policy_outer_join_complete (seed : Z) (n : nat) :
  let db := fst (Generator seed n) in
  List.length (q_per_policy db) = List.length (Policies db) /\
  NoDup (map PerPolicy.policy_id (q_per_policy db)) /\
  Permutation (map PerPolicy.policy_id (q_per_policy db))
              (map Policy.policy_id (Policies db)) /\
  forall p, In p (Policies db) ->
    (forall c, In c (Claims db) -> Claim.policy_id c <> Policy.policy_id p) ->
    In (PerPolicy.mk (Policy.policy_id p) (Policy.customer_age p)
                     (Policy.car_type p) (Policy.premium p) 0%Q 0)
       (q_per_policy db).
Proof.
  intros db. pose proof (Generator_NoDup seed n) as Hnd. fold db in Hnd.
  unfold q_per_policy. split; [| split; [| split]].
  - now apply per_policy_length.
  - apply per_policy_ids_NoDup.
  - now apply per_policy_Permutation.
  - intros p Hp Hnone. now apply per_policy_claimless.
Qed.

(** C2, amended. In every generated dataset of n policies the top-policies
    query returns min(10, n) rows, in descending order of total claim
    amount with ties allowed, where the total of a row is the sum of
    the claim amounts of its policy (0 when it has none). *)
Theorem top_policies_descending (seed : Z) (n : nat) :
  let db := fst (Generator seed n) in
  List.length (Policies db) = n /\
  List.length (q_top_policies db) = Nat.min 10 n /\
  StronglySorted
    (fun a b => (PerPolicy.total_claims_amount b <= PerPolicy.total_claims_amount a)%Q)
    (q_top_policies db) /\
  Forall
    (fun row =>
       (PerPolicy.total_claims_amount row
        == Real.qsum (map Claim.claim_amount
             (filter (fun c => PerPolicy.policy_id row =? Claim.policy_id c)
                     (Claims db))))%Q)
    (q_top_policies db).
Proof.
  intros db. pose proof (Generator_NoDup seed n) as Hnd. fold db in Hnd.
  pose proof (Generator_policy_count seed n) as Hn. fold db in Hn.
  split; [| split; [| split]].
  - exact Hn.
  - unfold q_top_policies, LIMIT.
    rewrite length_firstn, order_by_length, per_policy_length by exact Hnd.
    now rewrite Hn.
  - apply top_policies_Sorted.
  - apply Forall_forall. intros row Hrow.
    apply per_policy_total; [exact Hnd |].
    unfold q_top_policies, LIMIT in Hrow. apply In_firstn in Hrow.
    eapply Permutation_in; [apply order_by_Permutation | exact Hrow].
Qed.

End Claims.

(** C3 at a scripted dataset of five policies: policy 1 has no claim. *)
Lemma per_policy_outer_join_complete_witness :
  let db := fst (@Generator _ busy 42 5) in
  let p := Policy.mk 1 60 "Sports" 2700.00 in
  In p (Policies db) /\
  (forall c, In c (Claims db) -> Claim.policy_id c <> Policy.policy_id p) /\
  In (PerPolicy.mk 1 60 "Sports" 2700.00 0%Q 0) (q_per_policy db).
Proof.
  intros db p.
  assert (Hp : In p (Policies db)) by (vm_compute; left; reflexivity).
  assert (Hnone : forall c, In c (Claims db) ->
                            Claim.policy_id c <> Policy.policy_id p).
  { intros c Hc. vm_compute in Hc.
    destruct Hc as [<- | [<- | []]]; discriminate. }
  split; [exact Hp |]. split; [exact Hnone |].
  exact (proj2 (proj2 (proj2 (per_policy_outer_join_complete (np := busy) 42 5)))
           p Hp Hnone).
Defined.

(** C2 as stated fails: when no policy of the thousand makes a claim, the
    ten rows returned all have total 0.0, which is not strictly
    descending. *)
Lemma top_policies_not_strictly_descending :
  let db := fst (@Generator _ quiet 42 N_POLICIES) in
  NumpyLaws quiet /\
  ~ (List.length (q_top_policies db) = Nat.min 10 (List.length (Policies db)) /\
     StronglySorted
       (fun a b => (PerPolicy.total_claims_amount b < PerPolicy.total_claims_amount a)%Q)
       (q_top_policies db)).
Proof.
  intros db. split; [exact quiet_laws |].
  intros [_ H].
  assert (E : map PerPolicy.total_claims_amount (q_top_policies db)
              = repeat 0%Q 10) by (vm_compute; reflexivity).
  destruct (q_top_policies db) as [| a [| b l]]; try discriminate E.
  inversion H as [| ? ? _ Hall]; subst.
  inversion Hall as [| ? ? Hlt _]; subst.
  cbn in E. injection E as Ea Eb _.
  rewrite Ea, Eb in Hlt. discriminate Hlt.
Qed.

(** ** Age groups *)

Ltac case_bands :=
  repeat match goal with
         | |- context [?a <=? ?b] => destruct (Z.leb_spec a b)
         | H : context [?a <=? ?b] |- _ => destruct (Z.leb_spec a b)
         end; cbn in *.

Lemma age_group_canonical (a : Z) : In (age_group a) age_buckets.
Proof.
  unfold age_group, age_buckets. case_bands; tauto.
Qed.

Lemma age_group_band (a : Z) (b : string) :
  18 <= a -> In b age_buckets -> (in_band b a = true <-> age_group a = b).
Proof.
  intros Ha Hb. unfold age_buckets in Hb. cbn in Hb.
  destruct Hb as [<- | [<- | [<- | [<- | [<- | [<- | []]]]]]];
    unfold in_band, age_group; cbn [String.eqb Ascii.eqb Bool.eqb];
    case_bands; split; intros Hband;
    try reflexivity; try discriminate Hband; lia.
Qed.

Lemma canonical_order (a b : string) :
  In a age_buckets -> In b age_buckets ->
  (a <=? b)%string = true -> a <> b ->
  (bucket_index a < bucket_index b)%nat.
Proof.
  unfold age_buckets. cbn [In]. intros Ha Hb.
  destruct Ha as [<- | [<- | [<- | [<- | [<- | [<- | []]]]]]];
    destruct Hb as [<- | [<- | [<- | [<- | [<- | [<- | []]]]]]];
    intros Hle Hne;
    try (exfalso; apply Hne; reflexivity);
    try discriminate Hle;
    vm_compute; lia.
Qed.

Lemma Sorted_map {A B} (f : A -> B) (R : B -> B -> Prop) (l : list A) :
  Sorted (fun a b => R (f a) (f b)) l -> Sorted R (map f l).
Proof.
  induction 1 as [| a l _ IH Hhd]; cbn; constructor; [exact IH |].
  destruct Hhd; cbn; constructor. assumption.
Qed.

Lemma canonical_Sorted (l : list string) :
  Forall (fun b => In b age_buckets) l -> NoDup l ->
  Sorted (fun a b => (a <=? b)%string = true) l ->
  StronglySorted (fun a b => (bucket_index a < bucket_index b)%nat) l.
Proof.
  intros Hall Hnd Hs. apply Sorted_StronglySorted.
  - intros a b c. apply Nat.lt_trans.
  - induction Hs as [| a l Hs IH Hhd]; [constructor |].
    inversion Hall as [| ? ? Ha Hall']; subst.
    inversion Hnd as [| ? ? Hnotin Hnd']; subst.
    constructor; [now apply IH |].
    destruct Hhd as [| b l Hab]; constructor.
    inversion Hall' as [| ? ? Hb _]; subst.
    apply canonical_order; try assumption.
    intros ->. apply Hnotin. now left.
Qed.

Lemma string_leb_total (a b : string) :
  (a <=? b)%string = false -> (b <=? a)%string = true.
Proof. destruct (String.leb_total a b); congruence. Qed.

(** Under the primary key, grouping by (policy_id, customer_age, premium)
    is grouping by policy_id. *)
Lemma policy_claims_length (db : Database) :
  NoDup (map Policy.policy_id (Policies db)) ->
  List.length (policy_claims db) = List.length (Policies db).
Proof.
  intros Hnd. rewrite <- (per_policy_length db Hnd).
  unfold policy_claims, per_policy_rows. rewrite !length_map, !group_by_length.
  f_equal.
  apply (representatives_ext claims_key_eqb claims_key Z.eqb policy_key).
  intros [p oc] [p' oc'] Hr Hr'.
  apply left_join_In in Hr. apply left_join_In in Hr'.
  unfold claims_key_eqb, claims_key, policy_key. cbn [fst snd].
  destruct (Policy.policy_id p' =? Policy.policy_id p) eqn:E; [| reflexivity].
  apply Z.eqb_eq in E.
  assert (p' = p) by (eapply NoDup_map_injective; try eassumption; tauto).
  subst p'. rewrite Z.eqb_refl, Qeq_bool_refl. reflexivity.
Qed.

Lemma age_groups_labels (db : Database) :
  Permutation
    (map AgeGroup.age_group (q_age_groups db))
    (map (fun r => age_group (PolicyClaims.customer_age r))
         (representatives String.eqb
            (fun r => age_group (PolicyClaims.customer_age r)) (policy_claims db))).
Proof.
  unfold q_age_groups. rewrite order_by_Permutation.
  unfold group_by. rewrite !map_map. reflexivity.
Qed.

Lemma age_groups_counts (db : Database) :
  zsum (map AgeGroup.num_policies (q_age_groups db))
  = Z.of_nat (List.length (policy_claims db)).
Proof.
  unfold q_age_groups.
  rewrite <- (group_by_count String.eqb
                (fun r => age_group (PolicyClaims.customer_age r)) String.eqb_eq).
  rewrite (zsum_Permutation _ _ (Permutation_map _ (order_by_Permutation _ _))).
  rewrite map_map. f_equal. apply map_ext. intros [rep rows]. reflexivity.
Qed.

Lemma age_groups_Sorted (db : Database) :
  StronglySorted (fun a b => (bucket_index a < bucket_index b)%nat)
                 (map AgeGroup.age_group (q_age_groups db)).
Proof.
  apply canonical_Sorted.
  - apply Forall_forall. intros b Hb.
    apply (Permutation_in _ (age_groups_labels db)) in Hb.
    apply in_map_iff in Hb. destruct Hb as [r [<- _]].
    apply age_group_canonical.
  - eapply Permutation_NoDup; [symmetry; apply age_groups_labels |].
    apply representatives_NoDup, String.eqb_eq.
  - apply Sorted_map. unfold q_age_groups.
    apply order_by_Sorted. intros a b. apply string_leb_total.
Qed.

(** The SQL guard: a group whose premiums sum to zero has a NULL ratio. *)
(** The report is already in the order of the categories, so the sort
    before plotting leaves it as it is. *)
Lemma sort_values_age_group_id (db : Database) :
  sort_values_age_group (q_age_groups db) = q_age_groups db.
Proof.
  unfold sort_values_age_group. apply order_by_sorted.
  pose proof (age_groups_Sorted db) as Hs.
  apply StronglySorted_unmap in Hs.
  eapply StronglySorted_impl; [| exact Hs].
  intros a b Hlt. apply Nat.leb_le. now apply Nat.lt_le_incl.
Qed.




(** The pandas quotient has no such guard: a zero sum of premiums gives
    NaN or an infinity, and the frame without rows raises. *)
Lemma summary_unguarded (per_policy : list PerPolicy.row)
      (claims_rows : list (Z * Q * option string)) :
  (Real.qsum (map PerPolicy.premium per_policy) == 0)%Q ->
  let ratio :=
    Summary.average_loss_ratio_overall (summary_metrics per_policy claims_rows) in
  (per_policy = [] /\ ratio = ZeroDivisionError) \/
  (per_policy <> [] /\
   (ratio = Value NaN \/ exists negative, ratio = Value (Infinity negative))).
Proof.
  intros H ratio. unfold ratio, summary_metrics, sum_ratio.
  cbn [Summary.average_loss_ratio_overall].
  destruct per_policy as [| row rows]; [left; split; reflexivity |].
  right. split; [discriminate |]. unfold truediv.
  apply Qeq_bool_iff in H. rewrite H. clear H.
  destruct (Qeq_bool _ 0); [left; reflexivity | right; eexists; reflexivity].
Qed.

Section GeneratedData.

Context {Rng : Type} {np : Numpy Rng}.

(** C4. Every generated policy has 18 <= customer_age <= 79 and
    400 <= premium <= 4000; clipping to [400, 4000] and then rounding to
    two decimals stays within the bounds. *)
Theorem generated_policy_bounds (L : NumpyLaws np) (seed : Z) (n : nat) :
  (forall p, In p (Policies (fst (Generator seed n))) ->
     18 <= Policy.customer_age p <= 79 /\
     (400 <= Policy.premium p <= 4000)%Q) /\
  (forall x : Q, (400 <= Real.round2 (Real.clip 400 4000 x) <= 4000)%Q).
Proof.
  split.
  - intros p Hp. destruct (Generator_tables seed n) as [Ht _].
    rewrite Ht in Hp. apply insert_policies_In in Hp.
    destruct Hp as [[] | Hp].
    apply (policy_rows_range L) in Hp. split; [lia | tauto].
  - intros x.
    pose proof (clip_range 400 4000 x ltac:(discriminate)) as [Hlo Hhi].
    split; [apply (round2_lower 400) | apply (round2_upper 4000)]; assumption.
Qed.


End GeneratedData.

(** C10. The CASE of the age-group query is total: an age outside every
    named band, in particular any age below 18, gets the label of the ELSE
    branch, 70+. *)
Theorem age_group_else (customer_age : Z) :
  customer_age < 18 \/ 69 < customer_age ->
  age_group customer_age = "70+"%string.
Proof.
  intros Hout. unfold age_group. case_bands; try reflexivity; lia.
Qed.

(** ** The claims at scripted datasets *)

(** C4 at a scripted dataset of five policies. *)
Lemma generated_policy_bounds_witness :
  let db := fst (@Generator _ busy 42 5) in
  let p := Policy.mk 1 60 "Sports" 2700.00 in
  NumpyLaws busy /\ In p (Policies db) /\
  18 <= 60 <= 79 /\ (400 <= 2700.00 <= 4000)%Q.
Proof.
  intros db p.
  assert (Hp : In p (Policies db)) by (vm_compute; left; reflexivity).
  split; [exact busy_laws |]. split; [exact Hp |].
  exact (proj1 (generated_policy_bounds (np := busy) busy_laws 42 5) p Hp).
Defined.


(** C10 at age 17. *)
Lemma age_group_else_witness :
  (17 < 18 \/ 69 < 17) /\ age_group 17 = "70+"%string.
Proof.
  assert (H : 17 < 18 \/ 69 < 17) by (left; lia).
  split; [exact H |].
  exact (age_group_else 17 H).
Defined.

(** * Further properties *)

(** ** The join, policy by policy *)

Lemma joined_flat_map (db : Database) :
  joined db = flat_map (join_rows db) (Policies db).
Proof. reflexivity. Qed.

Lemma join_rows_fst (db : Database) (p : Policy.row) :
  Forall (fun r => fst r = p) (join_rows db p).
Proof.
  unfold join_rows. destruct (claims_of db p) as [| c m].
  - repeat constructor.
  - apply Forall_forall. intros r Hr. apply in_map_iff in Hr.
    destruct Hr as [c' [<- _]]. reflexivity.
Qed.

Lemma join_rows_length (db : Database) (p : Policy.row) :
  List.length (join_rows db p) = Nat.max 1 (List.length (claims_of db p)).
Proof.
  unfold join_rows. destruct (claims_of db p) as [| c m]; [reflexivity |].
  rewrite length_map. cbn [List.length]. lia.
Qed.

Lemma non_null_app {A} (l1 l2 : list (option A)) :
  non_null (l1 ++ l2) = non_null l1 ++ non_null l2.
Proof. unfold non_null. apply flat_map_app. Qed.

Lemma non_null_Some {A B} (f : A -> B) (l : list A) :
  non_null (map (fun a => Some (f a)) l) = map f l.
Proof.
  induction l as [| a l IH]; [reflexivity |].
  cbn. fold (non_null (map (fun a => Some (f a)) l)). now rewrite IH.
Qed.

Lemma join_rows_column {V} (f : Claim.row -> V) (db : Database) (p : Policy.row) :
  non_null (map (fun r => option_map f (snd r)) (join_rows db p))
  = map f (claims_of db p).
Proof.
  unfold join_rows. destruct (claims_of db p) as [| c m]; [reflexivity |].
  rewrite map_map. cbn [snd option_map]. apply non_null_Some.
Qed.

Lemma join_rows_amounts (db : Database) (p : Policy.row) :
  non_null (map c_claim_amount (join_rows db p))
  = map Claim.claim_amount (claims_of db p).
Proof. apply (join_rows_column Claim.claim_amount). Qed.

Lemma join_rows_ids (db : Database) (p : Policy.row) :
  non_null (map c_claim_id (join_rows db p))
  = map Claim.claim_id (claims_of db p).
Proof. apply (join_rows_column Claim.claim_id). Qed.

(** A condition on the policy alone selects whole blocks of the join. *)
Lemma joined_filter_left (q : Policy.row -> bool) (db : Database) :
  filter (fun r => q (fst r)) (joined db)
  = flat_map (join_rows db) (filter q (Policies db)).
Proof.
  rewrite joined_flat_map.
  induction (Policies db) as [| p ps IH]; [reflexivity |].
  cbn [flat_map filter]. rewrite filter_app, IH.
  assert (E : filter (fun r => q (fst r)) (join_rows db p)
              = if q p then join_rows db p else []).
  { pose proof (join_rows_fst db p) as HF.
    induction HF as [| r l Hr _ IHl]; [now destruct (q p) |].
    cbn [filter]. rewrite Hr, IHl. now destruct (q p). }
  rewrite E. destruct (q p); reflexivity.
Qed.

Lemma flat_map_column {V} (f : Claim.row -> V) (db : Database) (ps : list Policy.row) :
  non_null (map (fun r => option_map f (snd r)) (flat_map (join_rows db) ps))
  = flat_map (fun p => map f (claims_of db p)) ps.
Proof.
  induction ps as [| p ps IH]; [reflexivity |].
  cbn [flat_map]. rewrite map_app, non_null_app, IH, join_rows_column.
  reflexivity.
Qed.

Lemma flat_map_amounts (db : Database) (ps : list Policy.row) :
  non_null (map c_claim_amount (flat_map (join_rows db) ps))
  = flat_map (fun p => map Claim.claim_amount (claims_of db p)) ps.
Proof. apply (flat_map_column Claim.claim_amount). Qed.

Lemma flat_map_ids (db : Database) (ps : list Policy.row) :
  non_null (map c_claim_id (flat_map (join_rows db) ps))
  = flat_map (fun p => map Claim.claim_id (claims_of db p)) ps.
Proof. apply (flat_map_column Claim.claim_id). Qed.

Lemma COALESCE_SUM_non_null (l : list (option Q)) :
  COALESCE (SUM l) 0%Q = Real.qsum (non_null l).
Proof. unfold SUM. destruct (non_null l); reflexivity. Qed.

Lemma qsum_flat_map {A} (g : A -> list Q) (l : list A) :
  (Real.qsum (flat_map g l) == Real.qsum (map (fun a => Real.qsum (g a)) l))%Q.
Proof.
  induction l as [| a l IH]; [reflexivity |].
  cbn [flat_map map]. rewrite qsum_app, IH. reflexivity.
Qed.

Lemma filter_key_singleton {A} (f : A -> Z) (l : list A) (x : A) :
  NoDup (map f l) -> In x l -> filter (fun y => f y =? f x) l = [x].
Proof.
  induction l as [| a l IH]; cbn [map filter]; intros Hnd Hx; [contradiction |].
  inversion Hnd as [| ? ? Hnotin Hnd']; subst.
  destruct Hx as [-> | Hx].
  - rewrite Z.eqb_refl. f_equal.
    clear IH Hnd Hnd'. induction l as [| b l IHl]; [reflexivity |].
    cbn [filter]. destruct (f b =? f x) eqn:E.
    + exfalso. apply Hnotin. apply Z.eqb_eq in E. left. exact E.
    + apply IHl. intros Hin. apply Hnotin. now right.
  - destruct (f a =? f x) eqn:E.
    + exfalso. apply Hnotin. apply Z.eqb_eq in E. rewrite E. now apply in_map.
    + now apply IH.
Qed.

(** ** The groups of the join under the primary key *)

Section Representatives.

Context {A K : Type} (eqb : K -> K -> bool) (key : A -> K).
Hypothesis eqb_eq : forall a b, eqb a b = true <-> a = b.

(** Dropping a key before or after taking the first rows gives the same. *)
Lemma representatives_filter (k : K) (l : list A) :
  filter (fun r => negb (eqb (key r) k)) (representatives eqb key l)
  = representatives eqb key (filter (fun r => negb (eqb (key r) k)) l).
Proof.
  induction l as [| r l IH]; [reflexivity |].
  cbn [representatives filter].
  destruct (eqb (key r) k) eqn:E; cbn [negb].
  - apply eqb_eq in E. rewrite <- IH, E.
    clear. induction (representatives eqb key l) as [| x xs IHx]; [reflexivity |].
    cbn [filter]. destruct (negb (eqb (key x) k)) eqn:Ex; cbn [filter].
    + rewrite Ex. now f_equal.
    + exact IHx.
  - cbn [representatives]. f_equal. rewrite <- IH.
    clear. induction (representatives eqb key l) as [| x xs IHx]; [reflexivity |].
    cbn [filter].
    destruct (negb (eqb (key x) (key r))) eqn:E1;
      destruct (negb (eqb (key x) k)) eqn:E2; cbn [filter];
      rewrite ?E1, ?E2; first [exact IHx | now f_equal].
Qed.

(** A block of rows with one key, followed by rows with other keys, is
    represented by its first row. *)
Lemma representatives_block (r : A) (same rest : list A) :
  Forall (fun x => key x = key r) same ->
  Forall (fun x => key x <> key r) rest ->
  representatives eqb key (r :: same ++ rest)
  = r :: representatives eqb key rest.
Proof.
  intros Hsame Hrest. cbn [representatives]. f_equal.
  rewrite representatives_filter, filter_app.
  assert (E1 : filter (fun x => negb (eqb (key x) (key r))) same = []).
  { induction Hsame as [| x same Hx _ IHs]; [reflexivity |].
    cbn [filter]. rewrite Hx, (eqb_refl_true eqb eqb_eq). exact IHs. }
  assert (E2 : filter (fun x => negb (eqb (key x) (key r))) rest = rest).
  { induction Hrest as [| x rest Hx _ IHr]; [reflexivity |].
    cbn [filter]. rewrite (eqb_neq_false eqb eqb_eq) by exact Hx.
    cbn [negb]. now f_equal. }
  now rewrite E1, E2.
Qed.

End Representatives.

Lemma joined_representatives (db : Database) (ps : list Policy.row) :
  NoDup (map Policy.policy_id ps) ->
  representatives Z.eqb policy_key (flat_map (join_rows db) ps)
  = map (fun p => hd (p, None) (join_rows db p)) ps.
Proof.
  induction ps as [| p ps IH]; intros Hnd; [reflexivity |].
  inversion Hnd as [| ? ? Hnotin Hnd']; subst.
  cbn [flat_map map]. rewrite <- (IH Hnd').
  pose proof (join_rows_fst db p) as HF.
  destruct (join_rows db p) as [| r same] eqn:E.
  - unfold join_rows in E. destruct (claims_of db p); discriminate E.
  - cbn [hd]. rewrite <- app_comm_cons.
    inversion HF as [| ? ? Hr Hsame]; subst.
    apply (representatives_block Z.eqb policy_key Z.eqb_eq).
    + eapply Forall_impl; [| exact Hsame]. intros x Hx.
      unfold policy_key. now rewrite Hx.
    + apply Forall_forall. intros x Hx. apply in_flat_map in Hx.
      destruct Hx as [p' [Hp' Hx]].
      pose proof (join_rows_fst db p') as HF'.
      rewrite Forall_forall in HF'. apply HF' in Hx.
      unfold policy_key. rewrite Hx. cbn [fst]. intros Heq.
      apply Hnotin. rewrite <- Heq. now apply in_map.
Qed.

Lemma join_rows_hd (db : Database) (p : Policy.row) :
  fst (hd (p, None) (join_rows db p)) = p.
Proof.
  pose proof (join_rows_fst db p) as HF.
  destruct (join_rows db p); [reflexivity |].
  now inversion HF.
Qed.

(** The group of one policy in the join. *)
Lemma joined_group (db : Database) (p : Policy.row) :
  NoDup (map Policy.policy_id (Policies db)) -> In p (Policies db) ->
  filter (fun r => policy_key r =? Policy.policy_id p) (joined db)
  = join_rows db p.
Proof.
  intros Hnd Hp. unfold policy_key.
  rewrite (joined_filter_left (fun q => Policy.policy_id q =? Policy.policy_id p)).
  rewrite (filter_key_singleton Policy.policy_id _ p Hnd Hp).
  cbn [flat_map]. apply app_nil_r.
Qed.

(** Under the primary key the per-policy SELECT lists the policies in
    table order, each with the sum and the number of its claims. *)
Lemma per_policy_rows_closed (db : Database) :
  NoDup (map Policy.policy_id (Policies db)) ->
  per_policy_rows db = map (per_policy_row db) (Policies db).
Proof.
  intros Hnd. unfold per_policy_rows, group_by.
  assert (E : representatives Z.eqb policy_key (joined db)
              = map (fun p => hd (p, None) (join_rows db p)) (Policies db))
    by (rewrite joined_flat_map; now apply joined_representatives).
  rewrite E, !map_map.
  apply map_ext_in. intros p Hp.
  assert (G : filter (fun r => policy_key r
                               =? policy_key (hd (p, None) (join_rows db p)))
                     (joined db) = join_rows db p).
  { unfold policy_key at 2. rewrite join_rows_hd. now apply joined_group. }
  rewrite !G, join_rows_hd.
  unfold per_policy_row. f_equal.
  - now rewrite COALESCE_SUM_non_null, join_rows_amounts.
  - unfold COUNT. now rewrite join_rows_ids, length_map.
Qed.

(** ** What the tables hold after the bulk inserts *)

Lemma rowids_S (k : nat) : rowids (S k) = rowids k ++ [Z.of_nat (S k)].
Proof. unfold rowids. now rewrite seq_S, map_app. Qed.

Lemma rowids_In (k : nat) (i : Z) : In i (rowids k) <-> 1 <= i <= Z.of_nat k.
Proof.
  unfold rowids. rewrite in_map_iff. split.
  - intros [x [<- Hx]]. apply in_seq in Hx. lia.
  - intros Hi. exists (Z.to_nat i). split; [lia |]. apply in_seq. lia.
Qed.

Lemma next_rowid_rowids (k : nat) : next_rowid (rowids k) = Z.of_nat k + 1.
Proof.
  unfold next_rowid. f_equal.
  assert (Hle : forall l b, Forall (fun i => i <= b) l -> 0 <= b ->
                            fold_right Z.max 0 l <= b).
  { intros l b Hl Hb. induction Hl as [| i l Hi _ IH]; cbn; lia. }
  destruct k as [| k]; [reflexivity |].
  apply Z.le_antisymm.
  - apply Hle; [| lia]. apply Forall_forall. intros i Hi.
    apply rowids_In in Hi. lia.
  - pose proof (next_rowid_fresh (rowids (S k)) (Z.of_nat (S k))) as Hf.
    unfold next_rowid in Hf.
    assert (In (Z.of_nat (S k)) (rowids (S k))) by (apply rowids_In; lia).
    specialize (Hf H). lia.
Qed.

Lemma insert_policies_values rows : forall t,
  map policy_values (insert_policies rows t) = map policy_values t ++ rows.
Proof.
  induction rows as [| [[age car] prem] rows IH]; intros t; cbn [insert_policies].
  - now rewrite app_nil_r.
  - rewrite IH, map_app, <- app_assoc. reflexivity.
Qed.

Lemma insert_policies_rowids rows : forall t k,
  map Policy.policy_id t = rowids k ->
  map Policy.policy_id (insert_policies rows t)
  = rowids (k + List.length rows).
Proof.
  induction rows as [| [[age car] prem] rows IH]; intros t k Ht;
    cbn [insert_policies List.length].
  - now rewrite Nat.add_0_r.
  - rewrite (IH _ (S k)).
    + f_equal. lia.
    + rewrite map_app, Ht, rowids_S. cbn [map Policy.policy_id].
      rewrite next_rowid_rowids. do 2 f_equal. lia.
Qed.

Lemma insert_claims_values rows : forall t,
  map claim_values (insert_claims rows t) = map claim_values t ++ rows.
Proof.
  induction rows as [| [[pid amt] date] rows IH]; intros t; cbn [insert_claims].
  - now rewrite app_nil_r.
  - rewrite IH, map_app, <- app_assoc. reflexivity.
Qed.

Lemma insert_claims_rowids rows : forall t k,
  map Claim.claim_id t = rowids k ->
  map Claim.claim_id (insert_claims rows t) = rowids (k + List.length rows).
Proof.
  induction rows as [| [[pid amt] date] rows IH]; intros t k Ht;
    cbn [insert_claims List.length].
  - now rewrite Nat.add_0_r.
  - rewrite (IH _ (S k)).
    + f_equal. lia.
    + rewrite map_app, Ht, rowids_S. cbn [map Claim.claim_id].
      rewrite next_rowid_rowids. do 2 f_equal. lia.
Qed.

Lemma rowids_sorted (k : nat) : StronglySorted Z.lt (rowids k).
Proof.
  unfold rowids. generalize 1%nat as s. induction k as [| k IH]; intros s; cbn.
  - constructor.
  - constructor; [apply IH |].
    apply Forall_forall. intros i Hi. apply in_map_iff in Hi.
    destruct Hi as [x [<- Hx]]. apply in_seq in Hx. lia.
Qed.

Lemma StronglySorted_app {A} (R : A -> A -> Prop) (l1 l2 : list A) :
  StronglySorted R l1 -> StronglySorted R l2 ->
  (forall x y, In x l1 -> In y l2 -> R x y) ->
  StronglySorted R (l1 ++ l2).
Proof.
  intros H1 H2 Hx. induction H1 as [| a l1 _ IH Hall]; [exact H2 |].
  cbn. constructor.
  - apply IH. intros x y Hin. apply Hx. now right.
  - apply Forall_app. split; [exact Hall |].
    apply Forall_forall. intros y Hy. apply Hx; [now left | exact Hy].
Qed.

Lemma StronglySorted_app_cross {A} (R : A -> A -> Prop) (l1 l2 : list A) :
  StronglySorted R (l1 ++ l2) -> forall x y, In x l1 -> In y l2 -> R x y.
Proof.
  induction l1 as [| a l1 IH]; cbn; intros Hs x y Hx Hy; [contradiction |].
  inversion Hs as [| ? ? Hs' Hall]; subst.
  destruct Hx as [-> | Hx].
  - rewrite Forall_forall in Hall. apply Hall, in_or_app. now right.
  - now apply IH.
Qed.

Section GeneratedTables.

Context {Rng : Type} {np : Numpy Rng}.

(** The rows appended for the policies: no claim date, and the policy ids
    in the order of [policy_info]. *)
Lemma claims_rows_order info : forall g,
  StronglySorted Z.lt (map (fun i => fst (fst i)) info) ->
  StronglySorted Z.le (map (fun r => fst (fst r)) (fst (claims_rows info g))) /\
  Forall (fun r => snd r = None) (fst (claims_rows info g)).
Proof.
  induction info as [| [[pid age] car] info IH]; intros g Hs; cbn [claims_rows].
  - split; constructor.
  - cbn [map fst] in Hs. inversion Hs as [| ? ? Hs' Hall]; subst.
    pose proof (claims_rows_pids (np := np) info) as Hpids.
    unfold bind, ret, claims_of_policy. unfold bind, ret.
    destruct (poisson (base_lambda car age) g) as [k g1].
    destruct (draws k (lognormal mu sigma) g1) as [amts g2].
    specialize (IH g2 Hs'). specialize (Hpids g2).
    destruct (claims_rows info g2) as [later g3].
    cbn [fst snd] in *. destruct IH as [IHs IHd]. split.
    + rewrite map_app, map_map. cbn [fst].
      apply StronglySorted_app; [| exact IHs |].
      * induction amts as [| a amts IHa]; cbn; [constructor |].
        constructor; [exact IHa |].
        apply Forall_forall. intros y Hy. apply in_map_iff in Hy.
        destruct Hy as [? [<- _]]. lia.
      * intros x y Hx Hy. apply in_map_iff in Hx. destruct Hx as [? [<- _]].
        apply in_map_iff in Hy. destruct Hy as [r [<- Hr]].
        rewrite Forall_forall in Hpids, Hall.
        apply Z.lt_le_incl. apply Hall. now apply Hpids.
    + apply Forall_app. split; [| exact IHd].
      apply Forall_forall. intros r Hr. apply in_map_iff in Hr.
      destruct Hr as [? [<- _]]. reflexivity.
Qed.

Lemma Generator_policy_ids seed n :
  map Policy.policy_id (Policies (fst (Generator seed n))) = rowids n.
Proof.
  pose proof (Generator_policy_count seed n) as Hn.
  destruct (Generator_tables seed n) as [Ht _]. rewrite Ht in *.
  rewrite (insert_policies_rowids _ [] 0%nat eq_refl). cbn [Nat.add].
  rewrite insert_policies_length in Hn. cbn [List.length Nat.add] in Hn.
  now rewrite Hn.
Qed.

Lemma Generator_claim_values seed n :
  map claim_values (Claims (fst (Generator seed n))) = snd (Generator seed n).
Proof.
  destruct (Generator_tables seed n) as [_ [g [_ Hc]]].
  rewrite Hc. apply insert_claims_values.
Qed.

(** X1. After the two bulk inserts the tables hold exactly the rows the
    script generated, in the order generated: the stored policies are
    [policy_rows] keyed 1, 2, ..., n and the stored claims are
    [claims_rows] keyed 1, 2, ..., m. *)
Theorem generated_tables_round_trip (seed : Z) (n : nat) :
  let db := fst (Generator seed n) in
  let claims_rows := snd (Generator seed n) in
  map policy_values (Policies db) = fst (policy_rows n (default_rng seed)) /\
  map Policy.policy_id (Policies db) = rowids n /\
  map claim_values (Claims db) = claims_rows /\
  map Claim.claim_id (Claims db) = rowids (List.length claims_rows).
Proof.
  intros db crows. split; [| split; [| split]].
  - unfold db. destruct (Generator_tables seed n) as [-> _].
    apply insert_policies_values.
  - apply Generator_policy_ids.
  - apply Generator_claim_values.
  - unfold db, crows. destruct (Generator_tables seed n) as [_ [g [_ ->]]].
    apply (insert_claims_rowids _ [] 0%nat eq_refl).
Qed.

(** X2. The generated claims are stored policy by policy: down the Claims
    table the policy ids never decrease, and no claim carries a date. *)
Theorem claims_in_policy_order (seed : Z) (n : nat) :
  let db := fst (Generator seed n) in
  StronglySorted Z.le (map Claim.policy_id (Claims db)) /\
  Forall (fun c => Claim.claim_date c = None) (Claims db).
Proof.
  intros db.
  pose proof (Generator_claim_values seed n) as Hv. fold db in Hv.
  destruct (Generator_tables seed n) as [_ [g [Hrows _]]]. fold db in Hrows.
  destruct (claims_rows_order (policy_info db) g) as [Hs Hd].
  { unfold policy_info. rewrite map_map. cbn [fst].
    unfold db. rewrite Generator_policy_ids. apply rowids_sorted. }
  rewrite <- Hrows, <- Hv in Hs, Hd. split.
  - rewrite map_map in Hs. exact Hs.
  - rewrite Forall_forall in *. intros c Hc.
    apply (Hd (claim_values c)). now apply in_map.
Qed.

End GeneratedTables.

(** ** The per-policy table and the top ten *)

Lemma sample_db_key : NoDup (map Policy.policy_id (Policies sample_db)).
Proof. repeat (constructor; [cbn; intuition lia |]). constructor. Qed.

(** The claim counts of the policies add up to the claims that refer to
    a policy. *)
Lemma claims_count_partition (db : Database) :
  NoDup (map Policy.policy_id (Policies db)) ->
  (forall c, In c (Claims db) ->
             In (Claim.policy_id c) (map Policy.policy_id (Policies db))) ->
  zsum (map (fun p => Z.of_nat (List.length (claims_of db p))) (Policies db))
  = Z.of_nat (List.length (Claims db)).
Proof.
  intros Hnd Hfk. rewrite <- (zsum_ones (Claims db)).
  transitivity
    (msum Z.add 0
       (map (fun k => msum Z.add 0
                        (map (fun _ : Claim.row => 1)
                             (filter (fun c => k =? Claim.policy_id c) (Claims db))))
            (map Policy.policy_id (Policies db)))).
  - rewrite map_map. unfold zsum, msum. f_equal. apply map_ext. intros p.
    unfold claims_of. symmetry. apply zsum_ones.
  - apply (partition_sum eq Z.add 0 Zplus_assoc' Z.add_comm Z.add_0_l
             (fun a b => b =? a) Claim.policy_id).
    + intros a b. rewrite Z.eqb_eq. split; congruence.
    + exact Hnd.
    + exact Hfk.
Qed.

Lemma order_by_desc_Sorted (rows : list PerPolicy.row) :
  StronglySorted
    (fun a b => (PerPolicy.total_claims_amount b <= PerPolicy.total_claims_amount a)%Q)
    (order_by (fun a b => desc (PerPolicy.total_claims_amount a)
                               (PerPolicy.total_claims_amount b)) rows).
Proof.
  apply Sorted_StronglySorted.
  - intros a b c Hab Hbc. eapply Qle_trans; eassumption.
  - eapply Sorted_impl; [| apply order_by_Sorted].
    + intros a b H. unfold desc in H. apply Qle_bool_iff. exact H.
    + intros a b. unfold desc. apply Qle_bool_total.
Qed.

(** X3. When policy ids are unique the per-policy table consists of one
    row for each policy of the table: its id, age, car type and premium,
    the sum of the amounts of the claims that carry its id and the number
    of those claims. *)
Theorem per_policy_table (db : Database) :
  NoDup (map Policy.policy_id (Policies db)) ->
  Permutation (q_per_policy db) (map (per_policy_row db) (Policies db)).
Proof.
  intros Hnd. unfold q_per_policy.
  now rewrite per_policy_rows_closed.
Qed.

Lemma per_policy_table_witness :
  NoDup (map Policy.policy_id (Policies sample_db)) /\
  Permutation (q_per_policy sample_db)
              (map (per_policy_row sample_db) (Policies sample_db)).
Proof.
  split; [exact sample_db_key | exact (per_policy_table sample_db sample_db_key)].
Defined.

(** X4. The top-policies query keeps the greatest totals: the per-policy
    rows it leaves out all have a total claim amount at most that of every
    row it returns. *)
Theorem top_policies_dominate (db : Database) :
  exists rest,
    Permutation (q_top_policies db ++ rest) (q_per_policy db) /\
    forall t r, In t (q_top_policies db) -> In r rest ->
      (PerPolicy.total_claims_amount r <= PerPolicy.total_claims_amount t)%Q.
Proof.
  unfold q_top_policies, q_per_policy, LIMIT.
  set (sorted := order_by _ (per_policy_rows db)).
  exists (skipn 10 sorted). split.
  - rewrite firstn_skipn. apply order_by_Permutation.
  - intros t r Ht Hr.
    refine (StronglySorted_app_cross
              (fun a b => (PerPolicy.total_claims_amount b
                           <= PerPolicy.total_claims_amount a)%Q)
              (firstn 10 sorted) (skipn 10 sorted) _ t r Ht Hr).
    rewrite firstn_skipn. apply order_by_desc_Sorted.
Qed.

Section CountCheck.

Context {Rng : Type} {np : Numpy Rng}.

(** X5. For every generated dataset the summary counts agree with the
    tables: total_policies is the number of policies, total_claims_records
    is the number of rows of Claims, and it is also the sum of the
    claims_count column of the per-policy table. *)
Theorem summary_counts (seed : Z) (n : nat) :
  let db := fst (Generator seed n) in
  let summary := summary_metrics (q_per_policy db) (snd (Generator seed n)) in
  Summary.total_policies summary = Z.of_nat n /\
  Summary.total_policies summary = Z.of_nat (List.length (Policies db)) /\
  Summary.total_claims_records summary = Z.of_nat (List.length (Claims db)) /\
  zsum (map PerPolicy.claims_count (q_per_policy db))
    = Summary.total_claims_records summary.
Proof.
  intros db summary.
  pose proof (Generator_NoDup seed n) as Hnd. fold db in Hnd.
  pose proof (Generator_policy_count seed n) as Hn. fold db in Hn.
  pose proof (Generator_claim_values seed n) as Hv. fold db in Hv.
  assert (Hlen : List.length (snd (Generator seed n)) = List.length (Claims db))
    by (rewrite <- Hv; apply length_map).
  unfold summary, summary_metrics, q_per_policy.
  cbn [Summary.total_policies Summary.total_claims_records].
  rewrite per_policy_length by exact Hnd.
  split; [now rewrite Hn |]. split; [reflexivity |]. split; [now rewrite Hlen |].
  rewrite (per_policy_rows_closed db Hnd), map_map, Hlen.
  cbn [per_policy_row PerPolicy.claims_count].
  apply claims_count_partition; [exact Hnd |].
  apply Generator_foreign_key.
Qed.

End CountCheck.

(** ** Loss by car type *)

Lemma grouped_row {A K R} (eqb : K -> K -> bool) (key : A -> K)
      (F : A * list A -> R) (le : R -> R -> bool) (rows : list A) (row : R) :
  In row (order_by le (map F (group_by eqb key rows))) ->
  exists rep, In rep rows /\
              row = F (rep, filter (fun r => eqb (key r) (key rep)) rows).
Proof.
  intros H. apply (Permutation_in _ (order_by_Permutation _ _)) in H.
  apply in_map_iff in H. destruct H as [g [<- Hg]].
  unfold group_by in Hg. apply in_map_iff in Hg.
  destruct Hg as [rep [<- Hrep]]. exists rep. split; [| reflexivity].
  now apply representatives_In in Hrep.
Qed.

Lemma SUM_Some {A} (f : A -> Q) (l : list A) :
  l <> [] -> SUM (map (fun a => Some (f a)) l) = Some (Real.qsum (map f l)).
Proof.
  intros Hl. unfold SUM. rewrite non_null_Some.
  destruct l; [contradiction | reflexivity].
Qed.

Lemma qsum_const {A} (f : A -> Q) (v : Q) (l : list A) :
  Forall (fun a => f a = v) l ->
  (Real.qsum (map f l) == v * inject_Z (Z.of_nat (List.length l)))%Q.
Proof.
  induction 1 as [| a l Ha _ IH].
  - cbn. ring.
  - cbn [map Real.qsum fold_right List.length].
    fold (Real.qsum (map f l)). rewrite IH, Ha, Nat2Z.inj_succ.
    unfold Z.succ. rewrite inject_Z_plus. ring.
Qed.

Lemma map_flat_map {A B C} (f : B -> C) (g : A -> list B) (l : list A) :
  map f (flat_map g l) = flat_map (fun a => map f (g a)) l.
Proof.
  induction l as [| a l IH]; [reflexivity |].
  cbn [flat_map]. now rewrite map_app, IH.
Qed.

(** Summed over the join, a premium counts once per row of its policy. *)
Lemma joined_premiums (db : Database) (ps : list Policy.row) :
  (Real.qsum (map (fun r => Policy.premium (fst r)) (flat_map (join_rows db) ps))
   == Real.qsum (map (fun p => Policy.premium p * join_weight db p) ps))%Q.
Proof.
  rewrite map_flat_map, qsum_flat_map. apply qsum_map_ext. intros p _.
  unfold join_weight. rewrite <- join_rows_length.
  apply qsum_const.
  eapply Forall_impl; [| apply join_rows_fst]. intros r Hr. now rewrite Hr.
Qed.

Lemma car_group (db : Database) (k : string) :
  filter (fun r => (Policy.car_type (fst r) =? k)%string) (joined db)
  = flat_map (join_rows db) (car_policies db k).
Proof.
  apply (joined_filter_left (fun p => (Policy.car_type p =? k)%string)).
Qed.

Lemma flat_map_join_rows_nil (db : Database) (ps : list Policy.row) :
  ps <> [] -> flat_map (join_rows db) ps <> [].
Proof.
  destruct ps as [| p ps]; [contradiction |]. intros _. cbn [flat_map].
  unfold join_rows. destruct (claims_of db p); discriminate.
Qed.

(** Every row of the report is the aggregate of the join over the
    policies of its car type, and there is such a policy. *)
Lemma loss_by_car_row (db : Database) (row : LossByCar.row) :
  In row (q_loss_by_car db) ->
  let rows := flat_map (join_rows db) (car_policies db (LossByCar.car_type row)) in
  car_policies db (LossByCar.car_type row) <> [] /\
  LossByCar.num_policies row
    = COUNT_DISTINCT Z.eqb (map (fun r => Some (Policy.policy_id (fst r))) rows) /\
  LossByCar.total_claims row = COALESCE (SUM (map c_claim_amount rows)) 0%Q /\
  LossByCar.total_premiums row
    = SUM (map (fun r => Some (Policy.premium (fst r))) rows) /\
  LossByCar.loss_ratio row
    = loss_ratio_case (LossByCar.total_claims row) (LossByCar.total_premiums row) /\
  LossByCar.total_claims_count row = COUNT (map c_claim_id rows).
Proof.
  intros Hrow. unfold q_loss_by_car in Hrow.
  apply grouped_row in Hrow. destruct Hrow as [[p oc] [Hrep ->]].
  cbn [LossByCar.car_type LossByCar.num_policies LossByCar.total_claims
       LossByCar.total_premiums LossByCar.loss_ratio
       LossByCar.total_claims_count fst].
  rewrite car_group. split; [| repeat split].
  unfold joined in Hrep. apply left_join_In in Hrep. destruct Hrep as [Hp _].
  intros E.
  assert (Hin : In p (car_policies db (Policy.car_type p))).
  { apply filter_In. split; [exact Hp | apply String.eqb_refl]. }
  rewrite E in Hin. contradiction.
Qed.

Lemma loss_by_car_row_premiums (db : Database) (row : LossByCar.row) :
  In row (q_loss_by_car db) ->
  exists s,
    LossByCar.total_premiums row = Some s /\
    (s == Real.qsum (map (fun p => Policy.premium p * join_weight db p)
                         (car_policies db (LossByCar.car_type row))))%Q.
Proof.
  intros Hrow.
  destruct (loss_by_car_row db row Hrow) as [Hne [_ [_ [Hp _]]]].
  rewrite Hp, SUM_Some by now apply flat_map_join_rows_nil.
  eexists. split; [reflexivity |]. apply joined_premiums.
Qed.

(** X6. In the loss-by-car report the premium total of a car type is not
    the sum of its policies' premiums: the join repeats a policy once per
    claim, so each premium is counted once for a policy with at most one
    claim and k times for a policy with k claims. *)
Theorem loss_by_car_premium_fan_out (db : Database) :
  Forall
    (fun row =>
       exists s,
         LossByCar.total_premiums row = Some s /\
         (s == Real.qsum (map (fun p => Policy.premium p * join_weight db p)
                              (car_policies db (LossByCar.car_type row))))%Q)
    (q_loss_by_car db).
Proof.
  apply Forall_forall. intros row Hrow. now apply loss_by_car_row_premiums.
Qed.

Lemma filter_map_comm {A B} (p : B -> bool) (f : A -> B) (l : list A) :
  filter p (map f l) = map f (filter (fun a => p (f a)) l).
Proof.
  induction l as [| a l IH]; [reflexivity |].
  cbn [map filter]. destruct (p (f a)); cbn [map]; now rewrite IH.
Qed.

Lemma distinct_representatives {A K} (eqb : K -> K -> bool) (key : A -> K)
      (l : list A) :
  distinct eqb (map key l) = map key (representatives eqb key l).
Proof.
  induction l as [| a l IH]; [reflexivity |].
  cbn [map distinct representatives]. f_equal.
  rewrite IH. apply (filter_map_comm (fun k' => negb (eqb k' (key a))) key).
Qed.

(** Under the primary key COUNT(DISTINCT p.policy_id) counts the policies
    of the group. *)
Lemma count_distinct_policies (db : Database) (ps : list Policy.row) :
  NoDup (map Policy.policy_id ps) ->
  COUNT_DISTINCT Z.eqb
    (map (fun r => Some (Policy.policy_id (fst r))) (flat_map (join_rows db) ps))
  = Z.of_nat (List.length ps).
Proof.
  intros Hnd. unfold COUNT_DISTINCT. f_equal.
  rewrite (non_null_Some (fun r : Policy.row * option Claim.row =>
                            Policy.policy_id (fst r))).
  change (fun r : Policy.row * option Claim.row => Policy.policy_id (fst r))
    with policy_key.
  rewrite distinct_representatives, joined_representatives by exact Hnd.
  now rewrite !length_map.
Qed.

(** X7. When policy ids are unique, each row of the loss-by-car report
    describes the policies of its car type: there is at least one,
    num_policies is their number, total_claims is the sum of the amounts
    of the claims that refer to them and total_claims_count the number of
    those claims. *)
Theorem loss_by_car_rows (db : Database) :
  NoDup (map Policy.policy_id (Policies db)) ->
  Forall
    (fun row =>
       let ps := car_policies db (LossByCar.car_type row) in
       ps <> [] /\
       LossByCar.num_policies row = Z.of_nat (List.length ps) /\
       LossByCar.total_claims row
         = Real.qsum (map Claim.claim_amount (flat_map (claims_of db) ps)) /\
       LossByCar.total_claims_count row
         = Z.of_nat (List.length (flat_map (claims_of db) ps)))
    (q_loss_by_car db).
Proof.
  intros Hnd. apply Forall_forall. intros row Hrow.
  destruct (loss_by_car_row db row Hrow) as [Hne [Hn [Hc [_ [_ Hk]]]]].
  split; [exact Hne |]. split; [| split].
  - rewrite Hn. apply count_distinct_policies.
    unfold car_policies. now apply NoDup_map_filter.
  - rewrite Hc, COALESCE_SUM_non_null, flat_map_amounts, map_flat_map.
    reflexivity.
  - rewrite Hk. unfold COUNT. rewrite flat_map_ids, <- map_flat_map, length_map.
    reflexivity.
Qed.

Lemma loss_by_car_rows_witness :
  NoDup (map Policy.policy_id (Policies sample_db)) /\
  Forall
    (fun row =>
       let ps := car_policies sample_db (LossByCar.car_type row) in
       ps <> [] /\
       LossByCar.num_policies row = Z.of_nat (List.length ps) /\
       LossByCar.total_claims row
         = Real.qsum (map Claim.claim_amount (flat_map (claims_of sample_db) ps)) /\
       LossByCar.total_claims_count row
         = Z.of_nat (List.length (flat_map (claims_of sample_db) ps)))
    (q_loss_by_car sample_db).
Proof.
  split; [exact sample_db_key | exact (loss_by_car_rows sample_db sample_db_key)].
Defined.

Lemma desc_null_total (x y : option Q) :
  desc_null x y = false -> desc_null y x = true.
Proof.
  destruct x as [a |], y as [b |]; cbn; try easy. apply Qle_bool_total.
Qed.

Lemma desc_null_trans (x y z : option Q) :
  desc_null x y = true -> desc_null y z = true -> desc_null x z = true.
Proof.
  destruct x as [a |], y as [b |], z as [c |]; cbn; try easy.
  rewrite !Qle_bool_iff. intros Hba Hcb. eapply Qle_trans; eassumption.
Qed.

Lemma loss_by_car_car_types (db : Database) :
  NoDup (map LossByCar.car_type (q_loss_by_car db)) /\
  (forall k, In k (map LossByCar.car_type (q_loss_by_car db))
             <-> In k (map Policy.car_type (Policies db))).
Proof.
  assert (Hperm : Permutation
            (map LossByCar.car_type (q_loss_by_car db))
            (map (fun r => Policy.car_type (fst r))
                 (representatives String.eqb
                    (fun r => Policy.car_type (fst r)) (joined db)))).
  { unfold q_loss_by_car. rewrite order_by_Permutation.
    unfold group_by. rewrite !map_map. reflexivity. }
  split.
  - eapply Permutation_NoDup; [symmetry; exact Hperm |].
    apply representatives_NoDup, String.eqb_eq.
  - intros k. split; intros Hk.
    + apply (Permutation_in _ Hperm) in Hk.
      apply (proj1 (representatives_keys String.eqb _ String.eqb_eq _ _)) in Hk.
      exact (proj1 (left_join_left _ Policy.car_type _ _ _) Hk).
    + apply (Permutation_in _ (Permutation_sym Hperm)).
      apply (proj2 (representatives_keys String.eqb _ String.eqb_eq _ _)).
      exact (proj2 (left_join_left _ Policy.car_type _ _ _) Hk).
Qed.

(** X8. The loss-by-car report has one row for each car type present in
    the Policies table and no other row, and its rows are in descending
    order of loss ratio with the NULL ratios last. *)
Theorem loss_by_car_layout (db : Database) :
  NoDup (map LossByCar.car_type (q_loss_by_car db)) /\
  (forall k, In k (map LossByCar.car_type (q_loss_by_car db))
             <-> In k (map Policy.car_type (Policies db))) /\
  StronglySorted
    (fun a b => desc_null (LossByCar.loss_ratio a) (LossByCar.loss_ratio b) = true)
    (q_loss_by_car db).
Proof.
  destruct (loss_by_car_car_types db) as [Hnd Hk].
  split; [exact Hnd |]. split; [exact Hk |].
  unfold q_loss_by_car. apply Sorted_StronglySorted.
  - intros a b c. apply desc_null_trans.
  - apply order_by_Sorted. intros a b. apply desc_null_total.
Qed.

(** ** Portfolio mix *)

Lemma portfolio_mix_car_types (db : Database) :
  NoDup (map PortfolioMix.car_type (q_portfolio_mix db)) /\
  (forall k, In k (map PortfolioMix.car_type (q_portfolio_mix db))
             <-> In k (map Policy.car_type (Policies db))).
Proof.
  assert (Hkeys : map PortfolioMix.car_type (q_portfolio_mix db)
                  = map Policy.car_type
                        (representatives String.eqb Policy.car_type (Policies db))).
  { unfold q_portfolio_mix, group_by. rewrite !map_map. reflexivity. }
  rewrite Hkeys. split.
  - apply representatives_NoDup, String.eqb_eq.
  - intros k.
    apply (representatives_keys String.eqb Policy.car_type String.eqb_eq).
Qed.

(** X9. The portfolio-mix report has one row for each car type present in
    the Policies table and no other; the count of a row is the number of
    policies of its car type, which is positive, and the counts add up to
    the number of policies. *)
Theorem portfolio_mix_counts (db : Database) :
  NoDup (map PortfolioMix.car_type (q_portfolio_mix db)) /\
  (forall k, In k (map PortfolioMix.car_type (q_portfolio_mix db))
             <-> In k (map Policy.car_type (Policies db))) /\
  Forall (fun row =>
            PortfolioMix.num_policies row
              = Z.of_nat (List.length (car_policies db (PortfolioMix.car_type row)))
            /\ 0 < PortfolioMix.num_policies row)
         (q_portfolio_mix db) /\
  zsum (map PortfolioMix.num_policies (q_portfolio_mix db))
    = Z.of_nat (List.length (Policies db)).
Proof.
  destruct (portfolio_mix_car_types db) as [Hnd Hk].
  split; [exact Hnd |]. split; [exact Hk |]. split.
  - apply Forall_forall. intros row Hrow.
    unfold q_portfolio_mix, group_by in Hrow. rewrite map_map in Hrow.
    apply in_map_iff in Hrow. destruct Hrow as [rep [<- Hrep]].
    cbn [PortfolioMix.num_policies PortfolioMix.car_type].
    unfold COUNT_star. split; [reflexivity |].
    apply representatives_In in Hrep.
    assert (Hin : In rep (filter (fun r => (Policy.car_type r
                                            =? Policy.car_type rep)%string)
                                 (Policies db))).
    { apply filter_In. split; [exact Hrep | apply String.eqb_refl]. }
    destruct (filter _ (Policies db)); [contradiction | cbn [List.length]; lia].
  - rewrite <- (group_by_count String.eqb Policy.car_type String.eqb_eq).
    unfold q_portfolio_mix. rewrite map_map. f_equal.
    apply map_ext. intros [rep rows]. reflexivity.
Qed.

(** ** Generated data: ranges *)

Lemma qsum_nonneg (l : list Q) : Forall (fun x => (0 <= x)%Q) l -> (0 <= Real.qsum l)%Q.
Proof.
  induction 1 as [| x l Hx _ IH]; cbn; [discriminate |].
  fold (Real.qsum l). rewrite <- (Qplus_0_r 0). now apply Qplus_le_compat.
Qed.

Lemma qsum_lower (c : Q) (l : list Q) :
  (0 <= c)%Q -> l <> [] -> Forall (fun x => (c <= x)%Q) l -> (c <= Real.qsum l)%Q.
Proof.
  intros Hc Hl Hall. destruct Hall as [| x l Hx Hall]; [contradiction |].
  cbn. fold (Real.qsum l). rewrite <- (Qplus_0_r c).
  apply Qplus_le_compat; [exact Hx |]. apply qsum_nonneg.
  eapply Forall_impl; [| exact Hall]. intros y Hy. eapply Qle_trans; eassumption.
Qed.

Lemma loss_ratio_case_defined (claims s : Q) :
  (0 <= claims)%Q -> (0 < s)%Q ->
  exists r, loss_ratio_case claims (Some s) = Some r /\
            (r == claims / s)%Q /\ (0 <= r)%Q.
Proof.
  intros Hc Hs. unfold loss_ratio_case.
  destruct (Qeq_bool s 0) eqn:E.
  - apply Qeq_bool_iff in E. rewrite E in Hs. discriminate Hs.
  - eexists. split; [reflexivity |]. split.
    + now rewrite Qmult_1_r.
    + rewrite Qmult_1_r. apply Qle_shift_div_l; [exact Hs |].
      now rewrite Qmult_0_l.
Qed.

Section GeneratedRanges.

Context {Rng : Type} {np : Numpy Rng}.

Lemma Generator_policy_range (L : NumpyLaws np) seed n :
  forall p, In p (Policies (fst (Generator seed n))) ->
    18 <= Policy.customer_age p < 80 /\ (400 <= Policy.premium p <= 4000)%Q.
Proof.
  intros p Hp. destruct (Generator_tables seed n) as [Ht _].
  rewrite Ht in Hp. apply insert_policies_In in Hp.
  destruct Hp as [[] | Hp]. now apply (policy_rows_range L) in Hp.
Qed.

Lemma Generator_amount_nonneg (L : NumpyLaws np) seed n :
  forall c, In c (Claims (fst (Generator seed n))) -> (0 <= Claim.claim_amount c)%Q.
Proof.
  intros c Hc.
  destruct (Generator_tables seed n) as [_ [g [Hrows Hclaims]]].
  rewrite Hclaims in Hc. apply insert_claims_In in Hc.
  destruct Hc as [[] | Hc]. rewrite Hrows in Hc.
  pose proof (claims_rows_rows L (policy_info (fst (Generator seed n))) g) as HF.
  rewrite Forall_forall in HF. apply HF in Hc. cbn [fst snd] in Hc.
  destruct Hc as [_ [amt [Hpos Hamt]]].
  rewrite Hamt. apply round2_nonneg. now apply Qlt_le_weak.
Qed.

Lemma claims_of_incl (db : Database) (ps : list Policy.row) :
  forall c, In c (flat_map (claims_of db) ps) -> In c (Claims db).
Proof.
  intros c Hc. apply in_flat_map in Hc. destruct Hc as [p [_ Hc]].
  unfold claims_of in Hc. apply filter_In in Hc. tauto.
Qed.

(** The numerator and the denominator of a loss-by-car row on generated
    data. *)
Lemma loss_by_car_row_bounds (L : NumpyLaws np) (seed : Z) (n : nat)
      (row : LossByCar.row) :
  In row (q_loss_by_car (fst (Generator seed n))) ->
  exists s,
    LossByCar.total_premiums row = Some s /\ (400 <= s)%Q /\
    (0 <= LossByCar.total_claims row)%Q /\
    LossByCar.loss_ratio row
    = loss_ratio_case (LossByCar.total_claims row) (Some s).
Proof.
  set (db := fst (Generator seed n)). intros Hrow.
  destruct (loss_by_car_row db row Hrow) as [Hne [_ [Hc [Hp [Hr _]]]]].
  set (ps := car_policies db (LossByCar.car_type row)) in *.
  assert (Hrows : flat_map (join_rows db) ps <> [])
    by now apply flat_map_join_rows_nil.
  rewrite SUM_Some in Hp by exact Hrows.
  assert (Hs : (400 <= Real.qsum (map (fun r => Policy.premium (fst r))
                                      (flat_map (join_rows db) ps)))%Q).
  { apply qsum_lower; [discriminate | |].
    - intros E. apply map_eq_nil in E. contradiction.
    - apply Forall_forall. intros x Hx. apply in_map_iff in Hx.
      destruct Hx as [[p oc] [<- Hx]]. cbn [fst].
      apply in_flat_map in Hx. destruct Hx as [p' [Hp' Hx]].
      pose proof (join_rows_fst db p') as HF. rewrite Forall_forall in HF.
      apply HF in Hx. cbn [fst] in Hx. subst p'.
      unfold ps, car_policies in Hp'. apply filter_In in Hp'.
      apply (Generator_policy_range L seed n p). tauto. }
  assert (Hnonneg : (0 <= LossByCar.total_claims row)%Q).
  { rewrite Hc, COALESCE_SUM_non_null, flat_map_amounts.
    rewrite <- map_flat_map. apply qsum_nonneg.
    apply Forall_forall. intros x Hx. apply in_map_iff in Hx.
    destruct Hx as [c [<- Hx]]. apply claims_of_incl in Hx.
    now apply (Generator_amount_nonneg L seed n). }
  eexists. split; [exact Hp |]. split; [exact Hs |].
  split; [exact Hnonneg |]. now rewrite Hr, Hp.
Qed.

(** X10. On a generated dataset every loss ratio of the loss-by-car
    report is defined: the premium total of each car type is at least
    400, so the ratio is total_claims / total_premiums and not NULL, and
    it is not negative. *)
Theorem loss_by_car_ratio_defined (L : NumpyLaws np) (seed : Z) (n : nat) :
  Forall
    (fun row =>
       exists s r,
         LossByCar.total_premiums row = Some s /\ (400 <= s)%Q /\
         LossByCar.loss_ratio row = Some r /\
         (r == LossByCar.total_claims row / s)%Q /\ (0 <= r)%Q)
    (q_loss_by_car (fst (Generator seed n))).
Proof.
  apply Forall_forall. intros row Hrow.
  destruct (loss_by_car_row_bounds L seed n row Hrow) as [s [Hp [Hs [Hc Hr]]]].
  destruct (loss_ratio_case_defined (LossByCar.total_claims row) s Hc
              (Qlt_le_trans 0 400 s eq_refl Hs)) as [r [E [Hq Hr0]]].
  exists s, r. split; [exact Hp |]. split; [exact Hs |].
  split; [| split; [exact Hq | exact Hr0]].
  rewrite Hr. exact E.
Qed.

(** X11. Where [choice] returns one of its categories, every generated
    policy has one of the four car types; the portfolio-mix and
    loss-by-car reports then have at most four rows, and the display of
    the first twenty rows of loss-by-car shows the whole report. *)
Theorem generated_car_types (C : ChoiceLaws np) (seed : Z) (n : nat) :
  let db := fst (Generator seed n) in
  (forall p, In p (Policies db) -> In (Policy.car_type p) CAR_TYPES) /\
  (List.length (q_portfolio_mix db) <= 4)%nat /\
  (List.length (q_loss_by_car db) <= 4)%nat /\
  head 20 (q_loss_by_car db) = q_loss_by_car db.
Proof.
  intros db.
  assert (Hcar : forall p, In p (Policies db) -> In (Policy.car_type p) CAR_TYPES).
  { intros p Hp. unfold db in Hp. destruct (Generator_tables seed n) as [Ht _].
    rewrite Ht in Hp. apply insert_policies_In in Hp.
    destruct Hp as [[] | Hp]. revert Hp.
    unfold policy_rows, bind, ret.
    destruct (draws n (integers 18 80) (default_rng seed)) as [ages g1].
    pose proof (draws_Forall (fun c => In c CAR_TYPES)
                  (choice CAR_TYPES [0.4; 0.3; 0.2; 0.1]%Q)
                  (fun g => choice_In CAR_TYPES _ g ltac:(discriminate)) n g1)
      as Hcars.
    unfold CAR_TYPES in Hcars at 2.
    destruct (draws n (choice _ _) g1) as [cars g2].
    destruct (draws n (normal 1200 250) g2) as [raw g3].
    cbn [fst snd] in *. intros Hin.
    apply in_combine_l in Hin. apply in_combine_r in Hin.
    rewrite Forall_forall in Hcars. now apply Hcars. }
  assert (Hbound : forall l : list string,
             NoDup l -> (forall k, In k l -> In k (map Policy.car_type (Policies db))) ->
             (List.length l <= 4)%nat).
  { intros l Hnd Hin.
    apply (NoDup_incl_length Hnd (l' := CAR_TYPES)).
    intros k Hk. apply Hin in Hk. apply in_map_iff in Hk.
    destruct Hk as [p [<- Hp]]. now apply Hcar. }
  assert (Hmix : (List.length (q_portfolio_mix db) <= 4)%nat).
  { rewrite <- (length_map PortfolioMix.car_type).
    destruct (portfolio_mix_car_types db) as [Hnd Hk].
    apply Hbound; [exact Hnd | intros k; apply Hk]. }
  assert (Hloss : (List.length (q_loss_by_car db) <= 4)%nat).
  { rewrite <- (length_map LossByCar.car_type).
    destruct (loss_by_car_car_types db) as [Hnd Hk].
    apply Hbound; [exact Hnd | intros k; apply Hk]. }
  split; [exact Hcar |]. split; [exact Hmix |]. split; [exact Hloss |].
  unfold head. apply firstn_all2. lia.
Qed.

End GeneratedRanges.

(** ** Age groups, row by row *)

Lemma claims_key_agrees (db : Database) :
  NoDup (map Policy.policy_id (Policies db)) ->
  forall r r', In r (joined db) -> In r' (joined db) ->
    claims_key_eqb (claims_key r') (claims_key r) = (policy_key r' =? policy_key r).
Proof.
  intros Hnd [p oc] [p' oc'] Hr Hr'.
  apply left_join_In in Hr. apply left_join_In in Hr'.
  unfold claims_key_eqb, claims_key, policy_key. cbn [fst snd].
  destruct (Policy.policy_id p' =? Policy.policy_id p) eqn:E; [| reflexivity].
  apply Z.eqb_eq in E.
  assert (p' = p) by (eapply NoDup_map_injective; try eassumption; tauto).
  subst p'. rewrite Z.eqb_refl, Qeq_bool_refl. reflexivity.
Qed.

Lemma join_rows_In (db : Database) (p : Policy.row) :
  In p (Policies db) -> In (hd (p, None) (join_rows db p)) (joined db).
Proof.
  intros Hp. rewrite joined_flat_map. apply in_flat_map. exists p.
  split; [exact Hp |]. unfold join_rows.
  destruct (claims_of db p); now left.
Qed.

(** Under the primary key the CTE lists the policies in table order, each
    with the number and the sum of its claims. *)
Lemma policy_claims_closed (db : Database) :
  NoDup (map Policy.policy_id (Policies db)) ->
  policy_claims db = map (policy_claims_row db) (Policies db).
Proof.
  intros Hnd. unfold policy_claims, group_by.
  assert (E : representatives claims_key_eqb claims_key (joined db)
              = map (fun p => hd (p, None) (join_rows db p)) (Policies db)).
  { rewrite (representatives_ext claims_key_eqb claims_key Z.eqb policy_key)
      by (intros r r' Hr Hr'; now apply (claims_key_agrees db Hnd)).
    rewrite joined_flat_map. now apply joined_representatives. }
  rewrite E, !map_map. apply map_ext_in. intros p Hp.
  assert (G : filter (fun r => claims_key_eqb (claims_key r)
                                 (claims_key (hd (p, None) (join_rows db p))))
                     (joined db) = join_rows db p).
  { transitivity (filter (fun r => policy_key r =? Policy.policy_id p) (joined db));
      [| now apply joined_group].
    apply filter_ext_in. intros r Hr.
    rewrite (claims_key_agrees db Hnd _ r (join_rows_In db p Hp) Hr).
    unfold policy_key at 2. now rewrite join_rows_hd. }
  rewrite !G, join_rows_hd. unfold policy_claims_row. f_equal.
  - cbn [COALESCE]. unfold COUNT. now rewrite join_rows_ids, length_map.
  - now rewrite COALESCE_SUM_non_null, join_rows_amounts.
Qed.

Lemma age_group_rows (db : Database) (k : string) :
  NoDup (map Policy.policy_id (Policies db)) ->
  filter (fun r => (age_group (PolicyClaims.customer_age r) =? k)%string)
         (policy_claims db)
  = map (policy_claims_row db) (age_policies db k).
Proof.
  intros Hnd. rewrite (policy_claims_closed db Hnd).
  apply (filter_map_comm
           (fun r => (age_group (PolicyClaims.customer_age r) =? k)%string)).
Qed.

Lemma AVG_Some {A} (f : A -> Q) (l : list A) :
  l <> [] ->
  AVG (map (fun a => Some (f a)) l)
  = Some (Real.qsum (map f l) / inject_Z (Z.of_nat (List.length l)))%Q.
Proof.
  intros Hl. unfold AVG. rewrite non_null_Some.
  rewrite <- (length_map f l).
  destruct l; [contradiction | reflexivity].
Qed.

Lemma age_group_row (db : Database) (row : AgeGroup.row) :
  NoDup (map Policy.policy_id (Policies db)) ->
  In row (q_age_groups db) ->
  let ps := age_policies db (AgeGroup.age_group row) in
  ps <> [] /\
  AgeGroup.num_policies row = Z.of_nat (List.length ps) /\
  AgeGroup.total_premiums row = Some (Real.qsum (map Policy.premium ps)) /\
  AgeGroup.total_claims_amount row = Some (claims_total db ps) /\
  AgeGroup.avg_claims_per_policy row
    = Some (Real.qsum (map (fun p => inject_Z (Z.of_nat (List.length (claims_of db p)))) ps)
            / inject_Z (Z.of_nat (List.length ps)))%Q /\
  AgeGroup.loss_ratio row
    = loss_ratio_case (claims_total db ps)
                      (Some (Real.qsum (map Policy.premium ps))).
Proof.
  intros Hnd Hrow.
  unfold q_age_groups in Hrow. apply grouped_row in Hrow.
  destruct Hrow as [rep [Hrep ->]].
  cbn [AgeGroup.age_group AgeGroup.num_policies AgeGroup.total_premiums
       AgeGroup.total_claims_amount AgeGroup.avg_claims_per_policy
       AgeGroup.loss_ratio].
  rewrite (age_group_rows db _ Hnd).
  set (ps := age_policies db (age_group (PolicyClaims.customer_age rep))).
  assert (Hne : ps <> []).
  { rewrite (policy_claims_closed db Hnd) in Hrep. apply in_map_iff in Hrep.
    destruct Hrep as [p [<- Hp]]. intros E.
    assert (Hin : In p (age_policies db (age_group (Policy.customer_age p)))).
    { apply filter_In. split; [exact Hp | apply String.eqb_refl]. }
    cbn [policy_claims_row PolicyClaims.customer_age] in ps. fold ps in Hin.
    rewrite E in Hin. contradiction. }
  assert (Hne' : map (policy_claims_row db) ps <> []).
  { intros E. apply map_eq_nil in E. contradiction. }
  assert (Hprem : SUM (map (fun r => Some (PolicyClaims.premium r))
                           (map (policy_claims_row db) ps))
                  = Some (Real.qsum (map Policy.premium ps))).
  { rewrite SUM_Some by exact Hne'. now rewrite map_map. }
  assert (Hclaims : SUM (map (fun r => Some (PolicyClaims.claims_amount r))
                             (map (policy_claims_row db) ps))
                    = Some (claims_total db ps)).
  { rewrite SUM_Some by exact Hne'. now rewrite map_map. }
  rewrite Hprem, Hclaims.
  split; [exact Hne |]. split; [| split; [| split; [| split]]]; try reflexivity.
  - unfold COUNT_star. now rewrite length_map.
  - rewrite (AVG_Some (fun r => inject_Z (PolicyClaims.claims_count r)))
      by exact Hne'.
    now rewrite map_map, length_map.
Qed.

(** X12. When policy ids are unique, each row of the age-group report
    describes the policies whose age the CASE gives its label: there is at
    least one, num_policies is their number, total_premiums is the sum of
    their premiums with every policy counted once, total_claims_amount is
    the sum of their claims, and avg_claims_per_policy is the number of
    their claims divided by their number. *)
Theorem age_group_rows_content (db : Database) :
  NoDup (map Policy.policy_id (Policies db)) ->
  Forall
    (fun row =>
       let ps := age_policies db (AgeGroup.age_group row) in
       ps <> [] /\
       AgeGroup.num_policies row = Z.of_nat (List.length ps) /\
       AgeGroup.total_premiums row = Some (Real.qsum (map Policy.premium ps)) /\
       AgeGroup.total_claims_amount row = Some (claims_total db ps) /\
       AgeGroup.avg_claims_per_policy row
         = Some (Real.qsum (map (fun p => inject_Z (Z.of_nat (List.length (claims_of db p)))) ps)
                 / inject_Z (Z.of_nat (List.length ps)))%Q /\
       AgeGroup.loss_ratio row
         = loss_ratio_case (claims_total db ps)
                           (Some (Real.qsum (map Policy.premium ps))))
    (q_age_groups db).
Proof.
  intros Hnd. apply Forall_forall. intros row Hrow.
  now apply age_group_row.
Qed.

Lemma age_group_rows_content_witness :
  NoDup (map Policy.policy_id (Policies sample_db)) /\
  Forall
    (fun row =>
       let ps := age_policies sample_db (AgeGroup.age_group row) in
       ps <> [] /\
       AgeGroup.num_policies row = Z.of_nat (List.length ps) /\
       AgeGroup.total_premiums row = Some (Real.qsum (map Policy.premium ps)))
    (q_age_groups sample_db).
Proof.
  split; [exact sample_db_key |].
  eapply Forall_impl; [| exact (age_group_rows_content sample_db sample_db_key)].
  cbn beta zeta. intros row H. tauto.
Defined.

(** ** Loss ratios and totals on generated data *)

Lemma claims_total_nonneg (db : Database) (ps : list Policy.row) :
  (forall c, In c (Claims db) -> (0 <= Claim.claim_amount c)%Q) ->
  (0 <= claims_total db ps)%Q.
Proof.
  intros Hc. unfold claims_total. apply qsum_nonneg.
  apply Forall_forall. intros x Hx. apply in_map_iff in Hx.
  destruct Hx as [p [<- _]]. apply qsum_nonneg.
  apply Forall_forall. intros y Hy. apply in_map_iff in Hy.
  destruct Hy as [c [<- Hin]]. apply Hc.
  unfold claims_of in Hin. apply filter_In in Hin. tauto.
Qed.


Section GeneratedRatios.

Context {Rng : Type} {np : Numpy Rng}.

(** The numerator and the denominator of an age-group row on generated
    data. *)
Lemma age_group_row_bounds (L : NumpyLaws np) (seed : Z) (n : nat)
      (row : AgeGroup.row) :
  In row (q_age_groups (fst (Generator seed n))) ->
  exists s t,
    AgeGroup.total_premiums row = Some s /\ (400 <= s)%Q /\
    AgeGroup.total_claims_amount row = Some t /\ (0 <= t)%Q /\
    AgeGroup.loss_ratio row = loss_ratio_case t (Some s).
Proof.
  set (db := fst (Generator seed n)). intros Hrow.
  destruct (age_group_row db row (Generator_NoDup seed n) Hrow)
    as [Hne [_ [Hp [Hc [_ Hr]]]]].
  set (ps := age_policies db (AgeGroup.age_group row)) in *.
  assert (Hs : (400 <= Real.qsum (map Policy.premium ps))%Q).
  { apply qsum_lower; [discriminate | |].
    - intros E. apply map_eq_nil in E. contradiction.
    - apply Forall_forall. intros x Hx. apply in_map_iff in Hx.
      destruct Hx as [p [<- Hp']]. unfold ps, age_policies in Hp'.
      apply filter_In in Hp'. apply (Generator_policy_range L seed n p). tauto. }
  assert (Ht : (0 <= claims_total db ps)%Q)
    by (apply claims_total_nonneg, (Generator_amount_nonneg L)).
  eexists. eexists.
  split; [exact Hp |]. split; [exact Hs |]. split; [exact Hc |].
  split; [exact Ht | exact Hr].
Qed.


(** X13. On a generated dataset every loss ratio of the age-group report
    is defined: the premiums of each group sum to at least 400, so the
    ratio is total_claims_amount / total_premiums and not NULL, and it is
    not negative. *)
Theorem age_group_ratio_defined (L : NumpyLaws np) (seed : Z) (n : nat) :
  Forall
    (fun row =>
       exists s t r,
         AgeGroup.total_premiums row = Some s /\ (400 <= s)%Q /\
         AgeGroup.total_claims_amount row = Some t /\ (0 <= t)%Q /\
         AgeGroup.loss_ratio row = Some r /\ (r == t / s)%Q /\ (0 <= r)%Q)
    (q_age_groups (fst (Generator seed n))).
Proof.
  apply Forall_forall. intros row Hrow.
  destruct (age_group_row_bounds L seed n row Hrow)
    as [s [t [Hp [Hs [Hc [Ht Hr]]]]]].
  destruct (loss_ratio_case_defined t s Ht (Qlt_le_trans 0 400 s eq_refl Hs))
    as [r [E [Hq Hr0]]].
  exists s, t, r.
  split; [exact Hp |]. split; [exact Hs |]. split; [exact Hc |].
  split; [exact Ht |]. split; [| split; [exact Hq | exact Hr0]].
  rewrite Hr. exact E.
Qed.


End GeneratedRatios.

(** ** Counts across the rows of a report *)

Section ReportSum.

Context {M : Type} (eqv : M -> M -> Prop) (op : M -> M -> M) (e : M).
Context {eqv_equiv : Equivalence eqv}.
Context {op_proper : Proper (eqv ==> eqv ==> eqv) op}.
Hypothesis op_assoc : forall a b c, eqv (op a (op b c)) (op (op a b) c).
Hypothesis op_comm : forall a b, eqv (op a b) (op b a).
Hypothesis op_unit : forall a, eqv (op e a) a.

Context {R P K : Type} (eqb : K -> K -> bool) (key : P -> K) (lab : R -> K).
Hypothesis eqb_eq : forall a b, eqb a b = true <-> a = b.

(** A column that aggregates, row by row, the policies under the row's
    label adds up to the aggregate over all policies, when the labels are
    distinct and every policy falls under one. *)
Lemma report_sum (v : R -> M) (f : P -> M) (rs : list R) (ps : list P) :
  NoDup (map lab rs) ->
  (forall p, In p ps -> In (key p) (map lab rs)) ->
  (forall row, In row rs ->
     eqv (v row) (msum op e (map f (filter (fun p => eqb (key p) (lab row)) ps)))) ->
  eqv (msum op e (map v rs)) (msum op e (map f ps)).
Proof.
  intros Hnd Hcover Hrow.
  transitivity
    (msum op e
       (map (fun k => msum op e (map f (filter (fun p => eqb (key p) k) ps)))
            (map lab rs))).
  - rewrite map_map. apply (msum_map_ext eqv op e). exact Hrow.
  - apply (partition_sum eqv op e op_assoc op_comm op_unit eqb key eqb_eq);
      assumption.
Qed.

End ReportSum.

Lemma length_flat_map_zsum {A B} (g : A -> list B) (l : list A) :
  Z.of_nat (List.length (flat_map g l))
  = zsum (map (fun a => Z.of_nat (List.length (g a))) l).
Proof.
  induction l as [| a l IH]; [reflexivity |].
  cbn [flat_map map zsum fold_right]. fold (zsum (map (fun a => Z.of_nat (List.length (g a))) l)).
  rewrite length_app, Nat2Z.inj_add, IH. reflexivity.
Qed.

Lemma loss_by_car_cover (db : Database) :
  forall p, In p (Policies db) ->
    In (Policy.car_type p) (map LossByCar.car_type (q_loss_by_car db)).
Proof.
  intros p Hp. apply (proj2 (loss_by_car_car_types db)). now apply in_map.
Qed.

Lemma age_group_labels_NoDup (db : Database) :
  NoDup (map AgeGroup.age_group (q_age_groups db)).
Proof.
  eapply Permutation_NoDup; [symmetry; apply age_groups_labels |].
  apply representatives_NoDup, String.eqb_eq.
Qed.

Lemma age_group_cover (db : Database) :
  NoDup (map Policy.policy_id (Policies db)) ->
  forall p, In p (Policies db) ->
    In (age_group (Policy.customer_age p))
       (map AgeGroup.age_group (q_age_groups db)).
Proof.
  intros Hnd p Hp.
  apply (Permutation_in _ (Permutation_sym (age_groups_labels db))).
  apply (representatives_cover String.eqb
           (fun r => age_group (PolicyClaims.customer_age r)) String.eqb_eq
           (policy_claims db) (policy_claims_row db p)).
  rewrite (policy_claims_closed db Hnd). now apply in_map.
Qed.

Section CrossReport.

Context {Rng : Type} {np : Numpy Rng}.

(** X15. On a generated dataset the counts of the loss-by-car report
    add up over its rows: the claim counts to the number of claims stored,
    the policy counts to the number of policies. *)
Theorem loss_by_car_counts_add_up (seed : Z) (n : nat) :
  let db := fst (Generator seed n) in
  zsum (map LossByCar.total_claims_count (q_loss_by_car db))
    = Z.of_nat (List.length (Claims db)) /\
  zsum (map LossByCar.num_policies (q_loss_by_car db)) = Z.of_nat n.
Proof.
  intros db.
  pose proof (Generator_NoDup seed n) as Hnd. fold db in Hnd.
  pose proof (Generator_foreign_key seed n) as Hfk. fold db in Hfk.
  pose proof (Generator_policy_count seed n) as Hn. fold db in Hn.
  split.
  - rewrite <- (claims_count_partition db Hnd Hfk).
    apply (report_sum eq Z.add 0 Zplus_assoc' Z.add_comm Z.add_0_l
             String.eqb Policy.car_type LossByCar.car_type String.eqb_eq).
    + apply loss_by_car_car_types.
    + apply loss_by_car_cover.
    + intros row Hrow.
      destruct (loss_by_car_row db row Hrow) as [_ [_ [_ [_ [_ Hk]]]]].
      rewrite Hk. unfold COUNT.
      rewrite flat_map_ids, <- map_flat_map, length_map.
      apply length_flat_map_zsum.
  - rewrite <- Hn, <- (zsum_ones (Policies db)).
    apply (report_sum eq Z.add 0 Zplus_assoc' Z.add_comm Z.add_0_l
             String.eqb Policy.car_type LossByCar.car_type String.eqb_eq).
    + apply loss_by_car_car_types.
    + apply loss_by_car_cover.
    + intros row Hrow.
      destruct (loss_by_car_row db row Hrow) as [_ [Hc _]].
      rewrite Hc, count_distinct_policies
        by (unfold car_policies; now apply NoDup_map_filter).
      symmetry. apply zsum_ones.
Qed.

End CrossReport.

(** ** Claims without a policy *)

Lemma filter_filter_implied {A} (f g : A -> bool) (l : list A) :
  (forall x, f x = true -> g x = true) ->
  filter f (filter g l) = filter f l.
Proof.
  intros H. induction l as [| a l IH]; [reflexivity |].
  cbn [filter]. destruct (g a) eqn:Eg; cbn [filter].
  - now rewrite IH.
  - destruct (f a) eqn:Ef; [| exact IH].
    apply H in Ef. congruence.
Qed.

Lemma flat_map_ext_on {A B} (f g : A -> list B) (l : list A) :
  (forall a, In a l -> f a = g a) -> flat_map f l = flat_map g l.
Proof.
  induction l as [| a l IH]; intros H; [reflexivity |].
  cbn [flat_map]. rewrite (H a (or_introl eq_refl)), IH; [reflexivity |].
  intros x Hx. apply H. now right.
Qed.

Lemma joined_without_orphans (db : Database) :
  joined (without_orphans db) = joined db.
Proof.
  unfold joined, left_join, without_orphans. cbn [Policies Claims].
  apply flat_map_ext_on. intros p Hp.
  rewrite filter_filter_implied; [reflexivity |].
  intros c Hc. unfold has_policy. apply existsb_exists. now exists p.
Qed.

(** X17. A claim whose policy_id is the id of no policy (the script does
    not switch foreign-key enforcement on) reaches none of the SQL
    reports: each report is the same with such claims removed from
    Claims. *)
Theorem orphan_claims_ignored (db : Database) :
  q_loss_by_car (without_orphans db) = q_loss_by_car db /\
  q_age_groups (without_orphans db) = q_age_groups db /\
  q_top_policies (without_orphans db) = q_top_policies db /\
  q_portfolio_mix (without_orphans db) = q_portfolio_mix db /\
  q_per_policy (without_orphans db) = q_per_policy db.
Proof.
  unfold q_loss_by_car, q_age_groups, q_top_policies, q_per_policy,
    policy_claims, per_policy_rows.
  rewrite joined_without_orphans. repeat split.
Qed.

(** ** The reported and the true loss ratio of a car type *)

Lemma Qdiv_le_denominator (a b c : Q) :
  (0 <= a)%Q -> (0 < b)%Q -> (b <= c)%Q -> (a / c <= a / b)%Q.
Proof.
  intros Ha Hb Hbc.
  assert (Hc : (0 < c)%Q) by (eapply Qlt_le_trans; eassumption).
  apply Qle_shift_div_l; [exact Hb |].
  unfold Qdiv. rewrite <- Qmult_assoc, (Qmult_comm (/ c)), Qmult_assoc.
  apply Qle_shift_div_r; [exact Hc |].
  rewrite !(Qmult_comm a). now apply Qmult_le_compat_r.
Qed.

Lemma weighted_premiums_lower (db : Database) (ps : list Policy.row) :
  Forall (fun p => (0 <= Policy.premium p)%Q) ps ->
  (Real.qsum (map Policy.premium ps)
   <= Real.qsum (map (fun p => Policy.premium p * join_weight db p) ps))%Q.
Proof.
  induction 1 as [| p ps Hp _ IH]; [discriminate |].
  cbn [map Real.qsum fold_right].
  fold (Real.qsum (map Policy.premium ps)).
  fold (Real.qsum (map (fun p => (Policy.premium p * join_weight db p)%Q) ps)).
  apply Qplus_le_compat; [| exact IH].
  rewrite <- (Qmult_1_r (Policy.premium p)) at 1.
  rewrite !(Qmult_comm (Policy.premium p)).
  apply Qmult_le_compat_r; [| exact Hp].
  unfold join_weight. change 1%Q with (inject_Z 1). rewrite <- Zle_Qle. lia.
Qed.

Section ReportedRatio.

Context {Rng : Type} {np : Numpy Rng}.

(** X18. On a generated dataset the loss ratio that loss-by-car reports
    for a car type never exceeds the ratio of that type's claims to the
    sum of its policies' premiums: counting a premium once per claim can
    only lower the ratio. *)
Theorem loss_by_car_ratio_understated (L : NumpyLaws np) (seed : Z) (n : nat) :
  let db := fst (Generator seed n) in
  Forall
    (fun row =>
       exists r,
         LossByCar.loss_ratio row = Some r /\
         (r <= LossByCar.total_claims row
               / Real.qsum (map Policy.premium
                                (car_policies db (LossByCar.car_type row))))%Q)
    (q_loss_by_car db).
Proof.
  intros db. apply Forall_forall. intros row Hrow.
  destruct (loss_by_car_row db row Hrow) as [Hne [_ [Hc [_ [Hr _]]]]].
  destruct (loss_by_car_row_premiums db row Hrow) as [s [Hp Hs]].
  set (ps := car_policies db (LossByCar.car_type row)) in *.
  assert (Hrange : forall p, In p ps -> (400 <= Policy.premium p)%Q).
  { intros p Hin. unfold ps, car_policies in Hin. apply filter_In in Hin.
    apply (Generator_policy_range L seed n p). tauto. }
  assert (Htrue : (400 <= Real.qsum (map Policy.premium ps))%Q).
  { apply qsum_lower; [discriminate | |].
    - intros E. apply map_eq_nil in E. contradiction.
    - apply Forall_forall. intros x Hx. apply in_map_iff in Hx.
      destruct Hx as [p [<- Hin]]. now apply Hrange. }
  assert (Hle : (Real.qsum (map Policy.premium ps) <= s)%Q).
  { rewrite Hs. apply weighted_premiums_lower.
    apply Forall_forall. intros p Hin.
    eapply Qle_trans; [| apply (Hrange p Hin)]. discriminate. }
  assert (Hpos : (0 < Real.qsum (map Policy.premium ps))%Q)
    by (eapply Qlt_le_trans; [| exact Htrue]; reflexivity).
  assert (Hnonneg : (0 <= LossByCar.total_claims row)%Q).
  { rewrite Hc, COALESCE_SUM_non_null, flat_map_amounts.
    rewrite <- map_flat_map. apply qsum_nonneg.
    apply Forall_forall. intros x Hx. apply in_map_iff in Hx.
    destruct Hx as [c [<- Hx]]. apply claims_of_incl in Hx.
    now apply (Generator_amount_nonneg L seed n). }
  destruct (loss_ratio_case_defined (LossByCar.total_claims row) s Hnonneg
              (Qlt_le_trans 0 _ s Hpos Hle)) as [r [E [Hq _]]].
  exists r. split; [rewrite Hr, Hp; exact E |].
  rewrite Hq. now apply Qdiv_le_denominator.
Qed.

End ReportedRatio.

(** ** The further properties at scripted datasets *)

Lemma Scripted_choice (counts : nat -> nat) (severity : nat -> Q) :
  ChoiceLaws (Scripted.numpy counts severity).
Proof.
  split. intros a p g Ha. cbn. apply nth_In.
  apply Nat.mod_upper_bound. destruct a; [contradiction | discriminate].
Qed.

Lemma loss_by_car_ratio_defined_witness :
  NumpyLaws busy /\
  Forall
    (fun row =>
       exists s r,
         LossByCar.total_premiums row = Some s /\ (400 <= s)%Q /\
         LossByCar.loss_ratio row = Some r /\
         (r == LossByCar.total_claims row / s)%Q /\ (0 <= r)%Q)
    (q_loss_by_car (fst (@Generator _ busy 42 5))).
Proof.
  split; [exact busy_laws |].
  exact (loss_by_car_ratio_defined (np := busy) busy_laws 42 5).
Defined.

Lemma generated_car_types_witness :
  ChoiceLaws busy /\
  (List.length (q_loss_by_car (fst (@Generator _ busy 42 5))) <= 4)%nat /\
  head 20 (q_loss_by_car (fst (@Generator _ busy 42 5)))
  = q_loss_by_car (fst (@Generator _ busy 42 5)).
Proof.
  pose proof (generated_car_types (np := busy) (Scripted_choice _ _) 42 5)
    as [_ [_ [Hlen Hhead]]].
  split; [apply Scripted_choice |]. split; [exact Hlen | exact Hhead].
Defined.

Lemma age_group_ratio_defined_witness :
  NumpyLaws busy /\
  Forall
    (fun row =>
       exists s t r,
         AgeGroup.total_premiums row = Some s /\ (400 <= s)%Q /\
         AgeGroup.total_claims_amount row = Some t /\ (0 <= t)%Q /\
         AgeGroup.loss_ratio row = Some r /\ (r == t / s)%Q /\ (0 <= r)%Q)
    (q_age_groups (fst (@Generator _ busy 42 5))).
Proof.
  split; [exact busy_laws |].
  exact (age_group_ratio_defined (np := busy) busy_laws 42 5).
Defined.


Lemma loss_by_car_ratio_understated_witness :
  NumpyLaws busy /\
  Forall
    (fun row =>
       exists r,
         LossByCar.loss_ratio row = Some r /\
         (r <= LossByCar.total_claims row
               / Real.qsum (map Policy.premium
                                (car_policies (fst (@Generator _ busy 42 5))
                                              (LossByCar.car_type row))))%Q)
    (q_loss_by_car (fst (@Generator _ busy 42 5))).
Proof.
  split; [exact busy_laws |].
  exact (loss_by_car_ratio_understated (np := busy) busy_laws 42 5).
Defined.

(** ** Claim amounts *)

Section Severity.

Context {Rng : Type} {np : Numpy Rng}.

Lemma claims_of_policy_draws (P : Q -> Prop) pid age car g :
  (forall g, P (fst (lognormal mu sigma g))) ->
  Forall (fun r => exists amt, P amt /\ snd (fst r) = Real.round2 amt)
         (fst (claims_of_policy pid age car g)).
Proof.
  intros HP. unfold claims_of_policy, bind, ret.
  destruct (poisson (base_lambda car age) g) as [k g1].
  pose proof (draws_Forall P (lognormal mu sigma) HP k g1) as Hd.
  destruct (draws k (lognormal mu sigma) g1) as [amts g2].
  cbn [fst snd] in *.
  induction Hd as [| a amts Ha _ IH]; cbn [map]; constructor; [| exact IH].
  now exists a.
Qed.

Lemma claims_rows_draws (P : Q -> Prop) info :
  (forall g, P (fst (lognormal mu sigma g))) ->
  forall g,
    Forall (fun r => exists amt, P amt /\ snd (fst r) = Real.round2 amt)
           (fst (claims_rows info g)).
Proof.
  intros HP.
  induction info as [| [[pid age] car] info IH]; intros g; cbn [claims_rows].
  - constructor.
  - unfold bind, ret.
    pose proof (claims_of_policy_draws P pid age car g HP) as Hhere.
    destruct (claims_of_policy pid age car g) as [here g1].
    specialize (IH g1). destruct (claims_rows info g1) as [later g2].
    cbn [fst snd] in *. apply Forall_app. now split.
Qed.

(** C6. Where a severity draw exceeds half a cent, as NumPy's draws at
    the parameters of the script do, every generated claim has
    claim_amount > 0 after the rounding to two decimals, and every claim's
    policy_id is the policy_id of a generated policy. *)
Theorem generated_claims_positive (S : SeverityLaws np) (seed : Z) (n : nat) :
  let db := fst (Generator seed n) in
  forall c, In c (Claims db) ->
    (0 < Claim.claim_amount c)%Q /\
    exists p, In p (Policies db) /\ Policy.policy_id p = Claim.policy_id c.
Proof.
  intros db c Hc. split.
  - destruct (Generator_tables seed n) as [_ [g [Hrows Hclaims]]].
    fold db in Hrows, Hclaims.
    rewrite Hclaims in Hc. apply insert_claims_In in Hc.
    destruct Hc as [[] | Hc]. rewrite Hrows in Hc.
    pose proof (claims_rows_draws (fun a => (1 # 200 < a)%Q) (policy_info db)
                  lognormal_floor g) as HF.
    rewrite Forall_forall in HF. apply HF in Hc. cbn [fst snd] in Hc.
    destruct Hc as [amt [Hbig Hamt]]. rewrite Hamt. now apply round2_pos.
  - assert (Hfk : In (Claim.policy_id c) (map Policy.policy_id (Policies db)))
      by now apply Generator_foreign_key.
    apply in_map_iff in Hfk. destruct Hfk as [p [Hid Hp]]. exists p. now split.
Qed.

End Severity.

Lemma busy_severity : SeverityLaws busy.
Proof.
  split. intros g. cbn.
  apply Qlt_le_trans with 7000%Q; [reflexivity |].
  rewrite <- (Qplus_0_r 7000) at 1. apply Qplus_le_r.
  apply Qle_shift_div_l; [reflexivity |].
  change (0 * 3)%Q with (inject_Z 0). rewrite <- Zle_Qle. lia.
Qed.

(** C6 at a scripted dataset of five policies: the claim of policy 2. *)
Lemma generated_claims_positive_witness :
  let db := fst (@Generator _ busy 42 5) in
  let c := Claim.mk 1 2 7019.67 None in
  SeverityLaws busy /\ In c (Claims db) /\
  (0 < 7019.67)%Q /\
  exists p, In p (Policies db) /\ Policy.policy_id p = 2.
Proof.
  intros db c.
  assert (Hc : In c (Claims db)) by (vm_compute; left; reflexivity).
  split; [exact busy_severity |]. split; [exact Hc |].
  exact (generated_claims_positive (np := busy) busy_severity 42 5 c Hc).
Defined.

(** ** Age bands *)

Lemma band_policies_label (db : Database) (b : string) :
  (forall p, In p (Policies db) -> 18 <= Policy.customer_age p) ->
  In b age_buckets ->
  band_policies db b = age_policies db b.
Proof.
  intros Hage Hb. unfold band_policies, age_policies.
  apply filter_ext_in. intros p Hp.
  pose proof (age_group_band (Policy.customer_age p) b (Hage p Hp) Hb) as Hiff.
  destruct (in_band b (Policy.customer_age p)).
  - symmetry. apply String.eqb_eq. now apply Hiff.
  - destruct (String.eqb_spec (age_group (Policy.customer_age p)) b) as [E | NE];
      [| reflexivity].
    now apply Hiff.
Qed.

(** From age 18 up the six bands split a list of policies. *)
Lemma bands_partition (ps : list Policy.row) :
  Forall (fun p => 18 <= Policy.customer_age p) ps ->
  zsum (map (fun b => Z.of_nat (List.length
               (filter (fun p => in_band b (Policy.customer_age p)) ps)))
            age_buckets)
  = Z.of_nat (List.length ps).
Proof.
  induction 1 as [| p ps Hp _ IH]; [reflexivity |].
  unfold age_buckets in *. cbn [map zsum fold_right] in *.
  cbn [filter List.length].
  change (in_band "18-29" (Policy.customer_age p))
    with ((18 <=? Policy.customer_age p) && (Policy.customer_age p <=? 29)).
  change (in_band "30-39" (Policy.customer_age p))
    with ((30 <=? Policy.customer_age p) && (Policy.customer_age p <=? 39)).
  change (in_band "40-49" (Policy.customer_age p))
    with ((40 <=? Policy.customer_age p) && (Policy.customer_age p <=? 49)).
  change (in_band "50-59" (Policy.customer_age p))
    with ((50 <=? Policy.customer_age p) && (Policy.customer_age p <=? 59)).
  change (in_band "60-69" (Policy.customer_age p))
    with ((60 <=? Policy.customer_age p) && (Policy.customer_age p <=? 69)).
  change (in_band "70+" (Policy.customer_age p))
    with (70 <=? Policy.customer_age p).
  repeat match goal with
         | |- context [?a <=? ?b] => destruct (Z.leb_spec a b)
         end; cbn [andb List.length]; lia.
Qed.

Lemma bucket_count_band (db : Database) (b : string) :
  NoDup (map Policy.policy_id (Policies db)) ->
  bucket_count (q_age_groups db) b
  = Z.of_nat (List.length (age_policies db b)).
Proof.
  intros Hnd. unfold bucket_count.
  destruct (find _ (q_age_groups db)) as [row |] eqn:E.
  - apply find_some in E. destruct E as [Hrow Hb].
    apply String.eqb_eq in Hb. subst b.
    now destruct (age_group_row db row Hnd Hrow) as [_ [Hc _]].
  - destruct (age_policies db b) as [| p ps] eqn:Eps; [reflexivity |].
    assert (Hp : In p (age_policies db b)) by (rewrite Eps; now left).
    unfold age_policies in Hp. apply filter_In in Hp. destruct Hp as [Hp Hb].
    apply String.eqb_eq in Hb.
    pose proof (age_group_cover db Hnd p Hp) as Hin. rewrite Hb in Hin.
    apply in_map_iff in Hin. destruct Hin as [row [Hlab Hrow]].
    pose proof (find_none _ _ E row Hrow) as Hno. cbn beta in Hno.
    rewrite Hlab, String.eqb_refl in Hno. discriminate Hno.
Qed.

Section AgeBands.

Context {Rng : Type} {np : Numpy Rng}.

(** C8. In every generated dataset each policy's age lies in exactly one
    of the six bands 18-29, 30-39, 40-49, 50-59, 60-69, 70+, namely the
    one the query labels it with, and the age-group report has a row for
    it; each row of the report carries one of the six labels and counts
    the policies whose age lies in its band, at least one; the count the
    report gives for each of the six buckets (none for a bucket without a
    row) is the number of policies in the band, and the six counts sum to
    the number of policies; the rows have distinct labels and come in the
    canonical order 18-29, ..., 70+, so that the sort on the ordered
    categorical before plotting changes nothing. *)
Theorem age_group_stats_buckets (L : NumpyLaws np) (seed : Z) (n : nat) :
  let db := fst (Generator seed n) in
  let report := q_age_groups db in
  (forall p, In p (Policies db) ->
     In (age_group (Policy.customer_age p)) age_buckets /\
     In (age_group (Policy.customer_age p)) (map AgeGroup.age_group report) /\
     forall b, In b age_buckets ->
       (in_band b (Policy.customer_age p) = true
        <-> age_group (Policy.customer_age p) = b)) /\
  Forall (fun row =>
            In (AgeGroup.age_group row) age_buckets /\
            0 < AgeGroup.num_policies row /\
            AgeGroup.num_policies row
            = Z.of_nat (List.length (band_policies db (AgeGroup.age_group row))))
         report /\
  (forall b, In b age_buckets ->
     bucket_count report b = Z.of_nat (List.length (band_policies db b))) /\
  zsum (map (bucket_count report) age_buckets)
    = Z.of_nat (List.length (Policies db)) /\
  zsum (map AgeGroup.num_policies report)
    = Z.of_nat (List.length (Policies db)) /\
  NoDup (map AgeGroup.age_group report) /\
  StronglySorted (fun a b => (bucket_index a < bucket_index b)%nat)
                 (map AgeGroup.age_group report) /\
  sort_values_age_group report = report.
Proof.
  intros db report.
  pose proof (Generator_NoDup seed n) as Hnd. fold db in Hnd.
  assert (Hage : forall p, In p (Policies db) -> 18 <= Policy.customer_age p).
  { intros p Hp. apply (Generator_policy_range L seed n) in Hp. lia. }
  assert (Hlab : forall row, In row report -> In (AgeGroup.age_group row) age_buckets).
  { intros row Hrow.
    assert (Hb : In (AgeGroup.age_group row) (map AgeGroup.age_group report))
      by now apply in_map.
    apply (Permutation_in _ (age_groups_labels db)) in Hb.
    apply in_map_iff in Hb. destruct Hb as [r [<- _]].
    apply age_group_canonical. }
  assert (Hcount : forall b, In b age_buckets ->
            bucket_count report b = Z.of_nat (List.length (band_policies db b))).
  { intros b Hb. rewrite (band_policies_label db b Hage Hb).
    now apply bucket_count_band. }
  split; [| split; [| split; [| split; [| split; [| split; [| split]]]]]].
  - intros p Hp. split; [apply age_group_canonical |].
    split; [now apply age_group_cover |].
    intros b Hb. apply age_group_band; [now apply Hage | exact Hb].
  - apply Forall_forall. intros row Hrow.
    destruct (age_group_row db row Hnd Hrow) as [Hne [Hc _]].
    rewrite (band_policies_label db _ Hage (Hlab row Hrow)).
    split; [now apply Hlab |]. split; [| exact Hc].
    rewrite Hc. destruct (age_policies db (AgeGroup.age_group row));
      [contradiction | cbn [List.length]; lia].
  - exact Hcount.
  - transitivity
      (zsum (map (fun b => Z.of_nat (List.length (band_policies db b))) age_buckets)).
    + f_equal. apply map_ext_in. exact Hcount.
    + apply bands_partition. apply Forall_forall. exact Hage.
  - unfold report. rewrite age_groups_counts, policy_claims_length;
      [reflexivity | exact Hnd].
  - apply age_group_labels_NoDup.
  - apply age_groups_Sorted.
  - apply sort_values_age_group_id.
Qed.

End AgeBands.

(** C8 at a scripted dataset of thirty policies, ten in each of the bands
    18-29, 60-69 and 70+. *)
Lemma age_group_stats_buckets_witness :
  let db := fst (@Generator _ busy 42 30) in
  let report := q_age_groups db in
  NumpyLaws busy /\
  map AgeGroup.age_group report = ["18-29"; "60-69"; "70+"]%string /\
  map AgeGroup.num_policies report = [10; 10; 10] /\
  (forall b, In b age_buckets ->
     bucket_count report b = Z.of_nat (List.length (band_policies db b))) /\
  zsum (map (bucket_count report) age_buckets)
    = Z.of_nat (List.length (Policies db)).
Proof.
  intros db report.
  pose proof (age_group_stats_buckets (np := busy) busy_laws 42 30)
    as [_ [_ [Hcount [Hsum _]]]].
  split; [exact busy_laws |].
  split; [vm_compute; reflexivity |]. split; [vm_compute; reflexivity |].
  split; [exact Hcount | exact Hsum].
Defined.

(** ** Zero denominators *)

Section ZeroGuard.

Context {Rng : Type} {np : Numpy Rng}.


End ZeroGuard.

